(** * privacy-scan: a shallow embedding of [scripts/privacy-scan.py]

    The scanner reads source files line by line, tests every line that is
    not a comment against three catalogues of regular expressions, and post
    processes the findings (deduplicate, filter by severity, sort) before it
    prints a report and chooses the exit code.

    Modelling conventions.
    - A Python [str] is a [string]; the model covers ASCII text, where
      [str.lower], [str.strip], [\w], [\s] and [\b] have the meaning written
      out below.  Characters above 127 are left alone by [lower] and count
      as neither word nor space characters.
    - [re.search(p, s)] is used only for its truth value, so a pattern is
      embedded as a syntax tree and [re_search] decides whether some match
      exists; capture groups play no part.
    - A line number, a Python [int], is a [Z]; the counters of the reports
      are [nat].
    - [list.index] raises [ValueError] on a missing element: functions that
      call it return an [option].
    - The dictionaries and the set of the source are [gmap]s and a [gset]. *)

From stdpp Require Import gmap strings list pretty sorting relations.
From Stdlib Require Import Ascii ZArith.

Local Open Scope Z_scope.

(** ** Characters and strings *)

Module Text.

Definition code (c : ascii) : N := N_of_ascii c.

Definition in_range (lo hi : N) (c : ascii) : bool :=
  ((lo <=? code c) && (code c <=? hi))%N.

(** [str.isspace] on ASCII: tab, LF, VT, FF, CR, FS, GS, RS, US, space. *)
Definition is_space (c : ascii) : bool :=
  in_range 9 13 c || in_range 28 32 c.

(** [\w] on ASCII: letters, digits and the underscore. *)
Definition is_word (c : ascii) : bool :=
  in_range 97 122 c || in_range 65 90 c || in_range 48 57 c
  || Ascii.eqb c "_".

Definition lower_char (c : ascii) : ascii :=
  if in_range 65 90 c then ascii_of_N (code c + 32) else c.

Definition upper_char (c : ascii) : ascii :=
  if in_range 97 122 c then ascii_of_N (code c - 32) else c.

Fixpoint map_chars (f : ascii → ascii) (s : string) : string :=
  match s with
  | EmptyString => EmptyString
  | String c s' => String (f c) (map_chars f s')
  end.

(** [s.lower()] and [s.upper()] *)
Definition lower : string → string := map_chars lower_char.
Definition upper : string → string := map_chars upper_char.

Fixpoint lstrip (s : string) : string :=
  match s with
  | EmptyString => EmptyString
  | String c s' => if is_space c then lstrip s' else s
  end.

Definition rstrip (s : string) : string :=
  String.rev (lstrip (String.rev s)).

(** [s.strip()] *)
Definition strip (s : string) : string := rstrip (lstrip s).

(** [s.startswith(p)] *)
Definition startswith (s p : string) : bool := String.prefix p s.

(** [s[:n]] *)
Fixpoint slice_to (n : nat) (s : string) : string :=
  match n, s with
  | S n', String c s' => String c (slice_to n' s')
  | _, _ => EmptyString
  end.

(** [s.split('\n')]: the empty string splits into one empty line. *)
Fixpoint split_lines (s : string) : list string :=
  match s with
  | EmptyString => [EmptyString]
  | String c s' =>
      if Ascii.eqb c "010" then EmptyString :: split_lines s'
      else match split_lines s' with
           | l :: ls => String c l :: ls
           | [] => [String c EmptyString]
           end
  end.

Definition newline : string := String "010" EmptyString.

(** [c * n] *)
Fixpoint repeat_char (c : ascii) (n : nat) : string :=
  match n with
  | O => EmptyString
  | S n' => String c (repeat_char c n')
  end.

(** [sep.join(ls)] *)
Definition join (sep : string) (ls : list string) : string :=
  String.concat sep ls.

(** [s1 < s2] on strings: lexicographic on character codes. *)
Definition str_lt (s1 s2 : string) : bool := String.ltb s1 s2.

End Text.

(** ** Regular expressions

  The fragment of Python's [re] syntax the three catalogues use.  A
  position in the subject is a zipper: the characters before it, nearest
  first, and the characters after it. *)

Module Re.

Inductive regex : Type :=
| Eps
| Chr (p : ascii → bool)      (* one character satisfying [p] *)
| Bnd                         (* \b *)
| Seq (r1 r2 : regex)
| Alt (r1 r2 : regex)
| Star (r : regex)
| NLook (r : regex).          (* (?!r) *)

Definition pos : Type := list ascii * list ascii.

Definition word_before (z : pos) : bool :=
  match z.1 with c :: _ => Text.is_word c | [] => false end.

Definition word_after (z : pos) : bool :=
  match z.2 with c :: _ => Text.is_word c | [] => false end.

(** [\b]: exactly one side of the position is a word character. *)
Definition at_boundary (z : pos) : bool :=
  xorb (word_before z) (word_after z).

(** One more round of [r*]: [step] is the matcher of [r]; a round that
    consumes nothing is not repeated. *)
Fixpoint iter_star (step : pos → (pos → bool) → bool) (fuel : nat)
    (z : pos) (k : pos → bool) : bool :=
  match fuel with
  | O => k z
  | S n =>
      step z (λ z', (length z'.2 <? length z.2)%nat && iter_star step n z' k)
      || k z
  end.

(** Backtracking matcher in continuation passing style: [mt r z k] holds
    when [r] matches from [z] to some position accepted by [k]. *)
Fixpoint mt (r : regex) (z : pos) (k : pos → bool) {struct r} : bool :=
  match r with
  | Eps => k z
  | Chr p =>
      match z.2 with
      | c :: s => p c && k (c :: z.1, s)
      | [] => false
      end
  | Bnd => at_boundary z && k z
  | Seq r1 r2 => mt r1 z (λ z', mt r2 z' k)
  | Alt r1 r2 => mt r1 z k || mt r2 z k
  | Star r' => iter_star (mt r') (length z.2) z k
  | NLook r' => negb (mt r' z (λ _, true)) && k z
  end.

Fixpoint search_from (r : regex) (before after : list ascii) : bool :=
  mt r (before, after) (λ _, true)
  || match after with
     | [] => false
     | c :: s => search_from r (c :: before) s
     end.

(** [bool(re.search(r, s))] *)
Definition re_search (r : regex) (s : string) : bool :=
  search_from r [] (String.list_ascii_of_string s).

(** Pattern syntax. *)
Definition chr (c : ascii) : regex := Chr (Ascii.eqb c).
Definition any : regex := Chr (λ c, negb (Ascii.eqb c "010")).   (* . *)
Definition w : regex := Chr Text.is_word.                        (* \w *)
Definition s : regex := Chr Text.is_space.                       (* \s *)
Definition none_of (cs : list ascii) : regex :=                  (* [^..] *)
  Chr (λ c, negb (existsb (Ascii.eqb c) cs)).
Definition one_of (cs : list ascii) : regex :=                   (* [..] *)
  Chr (λ c, existsb (Ascii.eqb c) cs).
Definition plus (r : regex) : regex := Seq r (Star r).           (* r+ *)
Definition opt (r : regex) : regex := Alt r Eps.                 (* r? *)

Fixpoint lit_chars (cs : list ascii) : regex :=
  match cs with
  | [] => Eps
  | c :: cs' => Seq (chr c) (lit_chars cs')
  end.

(** A literal run of characters. *)
Definition lit (t : string) : regex := lit_chars (String.list_ascii_of_string t).

(** [(t1|t2|...)] *)
Fixpoint alts (rs : list regex) : regex :=
  match rs with
  | [] => NLook Eps
  | [r] => r
  | r :: rs' => Alt r (alts rs')
  end.

Definition words (ts : list string) : regex := alts (lit <$> ts).

Fixpoint cat (rs : list regex) : regex :=
  match rs with
  | [] => Eps
  | [r] => r
  | r :: rs' => Seq r (cat rs')
  end.

(** Declarative meaning of a pattern: [den r z z'] when [r] matches the
    text between [z] and [z']. *)
Fixpoint den (r : regex) : pos → pos → Prop :=
  match r with
  | Eps => λ z z', z' = z
  | Chr p => λ z z', ∃ c t, z.2 = c :: t ∧ p c = true ∧ z' = (c :: z.1, t)
  | Bnd => λ z z', at_boundary z = true ∧ z' = z
  | Seq r1 r2 => λ z z', ∃ m, den r1 z m ∧ den r2 m z'
  | Alt r1 r2 => λ z z', den r1 z z' ∨ den r2 z z'
  | Star r' => rtc (den r')
  | NLook r' => λ z z', z' = z ∧ ¬ ∃ m, den r' z m
  end.

End Re.

(** ** The rule catalogue *)

Module Rules.
Import Re.

Inductive Severity : Type := CRITICAL | HIGH | MEDIUM | LOW.

(** [Severity.X.value] *)
Definition value (sev : Severity) : string :=
  match sev with
  | CRITICAL => "critical"
  | HIGH => "high"
  | MEDIUM => "medium"
  | LOW => "low"
  end.

(** [\b(t1|t2|...)\b] *)
Definition field_pattern (tokens : list string) : regex :=
  cat [Bnd; words tokens; Bnd].

Definition PII_FIELD_PATTERNS : list (regex * string * Severity) :=
  [ (field_pattern ["ssn"; "social_security"; "social_security_number"],
     "SSN", CRITICAL);
    (field_pattern ["credit_card"; "card_number"; "cc_number"; "ccn"],
     "Credit Card", CRITICAL);
    (field_pattern ["password"; "passwd"; "pwd"; "secret"; "api_key";
                    "apikey"; "token"],
     "Credential", CRITICAL);
    (field_pattern ["passport"; "passport_number"; "passport_no"],
     "Passport", CRITICAL);
    (field_pattern ["driver_license"; "drivers_license"; "dl_number"],
     "Driver License", CRITICAL);
    (field_pattern ["bank_account"; "account_number"; "routing_number";
                    "iban"],
     "Financial", CRITICAL);
    (field_pattern ["email"; "email_address"; "e_mail"], "Email", HIGH);
    (field_pattern ["phone"; "phone_number"; "mobile"; "telephone"; "cell"],
     "Phone", HIGH);
    (field_pattern ["address"; "street_address"; "home_address";
                    "mailing_address"],
     "Address", HIGH);
    (field_pattern ["birth_date"; "dob"; "date_of_birth"; "birthday"],
     "Birth Date", HIGH);
    (field_pattern ["first_name"; "last_name"; "full_name"; "surname";
                    "given_name"],
     "Name", MEDIUM);
    (field_pattern ["ip_address"; "ip_addr"; "client_ip"; "user_ip"],
     "IP Address", MEDIUM);
    (field_pattern ["location"; "latitude"; "longitude"; "geo_location";
                    "coordinates"],
     "Location", MEDIUM);
    (field_pattern ["gender"; "sex"; "ethnicity"; "race"; "religion"],
     "Demographic", MEDIUM);
    (field_pattern ["medical"; "health"; "diagnosis"; "prescription";
                    "condition"],
     "Health", CRITICAL);
    (field_pattern ["biometric"; "fingerprint"; "face_id"; "facial";
                    "retina"],
     "Biometric", CRITICAL) ].

Definition log_tokens : list string :=
  ["email"; "phone"; "ssn"; "password"; "credit_card"; "address"].

(** [callee\s*\([^)]*\b(email|phone|ssn|password|credit_card|address)] *)
Definition log_pattern (callee : regex) : regex :=
  cat [callee; Star s; chr "("; Star (none_of [")"%char]); Bnd;
       words log_tokens].

Definition log_levels : list string :=
  ["info"; "warn"; "error"; "debug"].

Definition LOG_PATTERNS : list regex :=
  [ log_pattern (cat [lit "console."; words ("log" :: log_levels)]);
    log_pattern (cat [lit "logger."; words ("log" :: log_levels)]);
    log_pattern (cat [lit "log."; words log_levels]);
    log_pattern (words ["print"; "println"; "printf"]);
    log_pattern (cat [lit "logging."; words log_levels]) ].

(** [(\w+)\s*=\s*(request|req)\.(body|form|params|query)\s*\[\s*Q?
     (ssn|password|credit_card|card_number)], where [Q] is the class of the
    single and the double quote character. *)
Definition request_read_pattern : regex :=
  cat [plus w; Star s; chr "="; Star s; words ["request"; "req"]; chr ".";
       words ["body"; "form"; "params"; "query"]; Star s; chr "["; Star s;
       opt (one_of ["'"%char; "034"%char]);
       words ["ssn"; "password"; "credit_card"; "card_number"]].

(** The datastore call up to its closing parenthesis:
    [(db|database|store|save)\s*\.\s*\w+\s*\([^)]*\b(ssn|password|credit_card)\b[^)]*] *)
Definition store_call : regex :=
  cat [words ["db"; "database"; "store"; "save"]; Star s; chr "."; Star s;
       plus w; Star s; chr "("; Star (none_of [")"%char]); Bnd;
       words ["ssn"; "password"; "credit_card"]; Bnd;
       Star (none_of [")"%char])].

(** [.*encrypt] *)
Definition encrypt_ahead : regex := cat [Star any; lit "encrypt"].

(** [store_call\)\s*(?!.*encrypt)] *)
Definition store_write_pattern : regex :=
  cat [store_call; chr ")"; Star s; NLook encrypt_ahead].

Definition UNENCRYPTED_PATTERNS : list regex :=
  [ request_read_pattern; store_write_pattern ].

End Rules.

(** ** Findings and the line scanner *)

Module Scan.
Import Text Re Rules.

Record Finding : Type := mkFinding {
  file : string;
  line : Z;
  severity : string;
  category : string;
  description : string;
  code_snippet : string;
  recommendation : string
}.

#[global] Instance Finding_eq_dec : EqDecision Finding.
Proof. solve_decision. Defined.

(** The comment test of the loop body. *)
Definition is_comment_line (line : string) : bool :=
  let stripped := strip line in
  startswith stripped "//" || startswith stripped "#"
  || startswith stripped "*".

Definition field_finding (file_path : string) (line_num : Z) (line : string)
    (pii_type : string) (sev : Severity) : Finding :=
  {| file := file_path;
     line := line_num;
     severity := value sev;
     category := "pii_field";
     description := "Potential " +:+ pii_type +:+ " field detected";
     code_snippet := slice_to 100 (strip line);
     recommendation :=
       "Ensure " +:+ pii_type +:+ " data is encrypted and access is logged" |}.

Definition log_finding (file_path : string) (line_num : Z) (line : string)
    : Finding :=
  {| file := file_path;
     line := line_num;
     severity := value HIGH;
     category := "pii_in_logs";
     description := "Potential PII being logged";
     code_snippet := slice_to 100 (strip line);
     recommendation := "Remove PII from log statements or use masking" |}.

Definition unencrypted_finding (file_path : string) (line_num : Z)
    (line : string) : Finding :=
  {| file := file_path;
     line := line_num;
     severity := value CRITICAL;
     category := "unencrypted_pii";
     description := "Potential unencrypted PII storage";
     code_snippet := slice_to 100 (strip line);
     recommendation := "Encrypt sensitive data before storage" |}.

(** The body of the loop over the lines of [scan_file]: the findings one
    line appends, in the order they are appended. *)
Definition scan_line (file_path : string) (line_num : Z) (line : string)
    : list Finding :=
  let line_lower := lower line in
  if is_comment_line line then []
  else
    omap (λ '(pattern, pii_type, sev),
            if re_search pattern line_lower
            then Some (field_finding file_path line_num line pii_type sev)
            else None) PII_FIELD_PATTERNS
    ++ omap (λ pattern,
               if re_search pattern line_lower
               then Some (log_finding file_path line_num line) else None)
         LOG_PATTERNS
    ++ omap (λ pattern,
               if re_search pattern line_lower
               then Some (unencrypted_finding file_path line_num line)
               else None)
         UNENCRYPTED_PATTERNS.

(** [for line_num, line in enumerate(lines, line_num)] *)
Fixpoint scan_lines (file_path : string) (line_num : Z) (lines : list string)
    : list Finding :=
  match lines with
  | [] => []
  | l :: ls =>
      scan_line file_path line_num l ++ scan_lines file_path (line_num + 1) ls
  end.

(** The text of a file after [read_text(encoding='utf-8', errors='ignore')],
    or the message of the exception the read raised. *)
Definition FileData : Type := string + string.

(** [scan_file]: the findings, and what is written to the standard error
    stream.  [file_str] is [str(file_path)]. *)
Definition scan_file (file_str : string) (data : FileData)
    : list Finding * list string :=
  match data with
  | inl content => (scan_lines file_str 1 (split_lines content), [])
  | inr e =>
      ([], ["Warning: Could not read " +:+ file_str +:+ ": " +:+ e])
  end.

End Scan.

(** ** The file selector *)

Module Files.
Import Text.

(** A [pathlib.Path] is the list of its parts; an absolute path starts with
    the part ["/"]. *)
Definition Path : Type := list string.

(** [str(path)] *)
Definition path_str (p : Path) : string :=
  match p with
  | [] => "."
  | "/" :: rest => "/" +:+ join "/" rest
  | _ => join "/" p
  end.

(** [path.name] *)
Definition path_name (p : Path) : string :=
  match last p with
  | Some "/" | None => ""
  | Some n => n
  end.

(** [s.rfind(c)], [None] for -1 *)
Fixpoint rfind (c : ascii) (s : string) : option nat :=
  match s with
  | EmptyString => None
  | String d s' =>
      match rfind c s' with
      | Some i => Some (S i)
      | None => if Ascii.eqb d c then Some O else None
      end
  end.

(** [s[n:]] *)
Fixpoint slice_from (n : nat) (s : string) : string :=
  match n, s with
  | S n', String _ s' => slice_from n' s'
  | _, _ => s
  end.

(** [path.suffix]: the last dot of the name and what follows it, unless the
    dot is the first or the last character of the name. *)
Definition path_suffix (p : Path) : string :=
  let name := path_name p in
  match rfind "." name with
  | Some i =>
      if ((0 <? i) && (i <? String.length name - 1))%nat
      then slice_from i name else ""
  | None => ""
  end.

Definition SCAN_EXTENSIONS : gset string :=
  list_to_set
    [".ts"; ".tsx"; ".js"; ".jsx"; ".py"; ".java"; ".cs"; ".go"; ".rb";
     ".php"; ".swift"; ".kt"; ".scala"; ".rs"; ".cpp"; ".c"; ".h"].

Definition SKIP_DIRS : gset string :=
  list_to_set
    ["node_modules"; "vendor"; "venv"; ".venv"; "__pycache__";
     "dist"; "build"; ".git"; ".svn"; "target"; "bin"; "obj"].

Definition should_scan_file (path : Path) : bool :=
  if bool_decide (lower (path_suffix path) ∉ SCAN_EXTENSIONS) then false
  else forallb (λ part, negb (bool_decide (part ∈ SKIP_DIRS))) path.

(** What the file system holds at a path: a regular file, a directory with
    its entries in the order the system lists them, or something else (a
    device, a socket, a pipe).  A path at which nothing exists is [None]. *)
#[local] Unset Elimination Schemes.
Inductive Node : Type :=
| File (data : Scan.FileData)
| Dir (entries : list (string * Node))
| Special.
#[local] Set Elimination Schemes.

Definition is_file (n : option Node) : bool :=
  match n with Some (File _) => true | _ => false end.

(** The directories below and including a directory, parents first. *)
Fixpoint walk (p : Path) (n : Node) : list (Path * list (string * Node)) :=
  match n with
  | Dir entries =>
      (p, entries)
      :: (fix below (es : list (string * Node)) :=
            match es with
            | [] => []
            | (name, child) :: es' => walk (p ++ [name]) child ++ below es'
            end) entries
  | _ => []
  end.

(** [root.rglob('*')]: every entry of every directory of the walk.  Nothing
    is listed below a root that is not a directory. *)
Definition rglob (root : Path) (n : option Node) : list (Path * Node) :=
  match n with
  | Some d =>
      '(p, entries) ← walk root d;
      (λ '(name, child), (p ++ [name], child)) <$> entries
  | None => []
  end.

(** [get_files]: the selected paths with the data a read of them gives. *)
Definition get_files (root : Path) (n : option Node)
    : list (Path * Scan.FileData) :=
  match n with
  | Some (File data) =>
      if should_scan_file root then [(root, data)] else []
  | _ =>
      omap (λ '(file_path, child),
              match child with
              | File data =>
                  if should_scan_file file_path
                  then Some (file_path, data) else None
              | _ => None
              end) (rglob root n)
  end.

End Files.

(** ** The finding post-processor *)

Module Post.
Import Text Scan.

(** [(f.file, f.line, f.category)] *)
Definition key (f : Finding) : string * Z * string :=
  (file f, line f, category f).

(** One round of the loop of [deduplicate_findings] on its two variables. *)
Definition dedup_step (st : gset (string * Z * string) * list Finding)
    (f : Finding) : gset (string * Z * string) * list Finding :=
  let '(seen, unique) := st in
  if bool_decide (key f ∉ seen) then ({[key f]} ∪ seen, unique ++ [f])
  else (seen, unique).

Definition deduplicate_findings (findings : list Finding) : list Finding :=
  (foldl dedup_step (∅, []) findings).2.

(** Following the words of the specification: the findings that are the
    first occurrence of their key, in the order of the input. *)
Definition first_occurrences (findings : list Finding) : list Finding :=
  (filter (λ p, key p.2 ∉ key <$> take p.1 findings)
     (imap pair findings)).*2.

Definition severity_order : list string :=
  ["critical"; "high"; "medium"; "low"].

(** [l.index(x)]; [None] stands for the [ValueError] of a missing [x]. *)
Fixpoint index (x : string) (l : list string) : option nat :=
  match l with
  | [] => None
  | y :: l' => if bool_decide (y = x) then Some O else S <$> index x l'
  end.

(** The list comprehension of [filter_by_severity]. *)
Fixpoint keep_up_to (min_index : nat) (findings : list Finding)
    : option (list Finding) :=
  match findings with
  | [] => Some []
  | f :: fs =>
      i ← index (severity f) severity_order;
      rest ← keep_up_to min_index fs;
      Some (if bool_decide (i ≤ min_index)%nat then f :: rest else rest)
  end.

Definition filter_by_severity (findings : list Finding)
    (min_severity : string) : option (list Finding) :=
  min_index ← index (lower min_severity) severity_order;
  keep_up_to min_index findings.

(** [list.sort] and [sorted]: a stable sort that compares with [<] only.
    An element goes in front of the first element of the sorted tail that
    is not smaller than it. *)
Fixpoint insert_sorted {A} (lt : A → A → bool) (x : A) (l : list A)
    : list A :=
  match l with
  | [] => [x]
  | y :: l' => if lt y x then y :: insert_sorted lt x l' else x :: l
  end.

Fixpoint stable_sort {A} (lt : A → A → bool) (l : list A) : list A :=
  match l with
  | [] => []
  | x :: l' => insert_sorted lt x (stable_sort lt l')
  end.

(** The sort key of [main]:
    [(['critical', 'high', 'medium', 'low'].index(f.severity), f.file, f.line)] *)
Definition sort_key (f : Finding) : option (nat * string * Z) :=
  i ← index (severity f) severity_order;
  Some (i, file f, line f).

(** [<] on the key tuples: the first components that differ decide. *)
Definition key_lt (a b : nat * string * Z) : bool :=
  let '(i, p, n) := a in
  let '(j, q, m) := b in
  if bool_decide (i ≠ j) then (i <? j)%nat
  else if bool_decide (p ≠ q) then str_lt p q
  else n <? m.

(** [findings.sort(key=...)]: the keys are computed first, then the
    findings are sorted by them. *)
Definition sort_findings (findings : list Finding)
    : option (list Finding) :=
  keys ← mapM sort_key findings;
  Some ((stable_sort (λ a b, key_lt a.1 b.1) (zip keys findings)).*2).

End Post.

(** ** The report renderer *)

Module Report.
Import Text Scan Post.

Definition count_severity (sev : string) (findings : list Finding) : nat :=
  length (filter (λ f, severity f = sev) findings).

(** The loop that fills [by_severity]. *)
Definition count_by_severity (findings : list Finding) : gmap string nat :=
  foldl (λ by_severity f,
           <[severity f := (default O (by_severity !! severity f) + 1)%nat]>
             by_severity)
    ∅ findings.

(** The loop that fills [by_file]. *)
Definition group_by_file (findings : list Finding)
    : gmap string (list Finding) :=
  foldl (λ by_file f,
           <[file f := default [] (by_file !! file f) ++ [f]]> by_file)
    ∅ findings.

Definition sev_icon : gmap string string :=
  list_to_map [("critical", "🔴"); ("high", "🟠"); ("medium", "🟡");
               ("low", "🔵")].

Definition finding_lines (f : Finding) : list string :=
  [ "  " +:+ default "⚪" (sev_icon !! severity f) +:+ " Line "
      +:+ pretty (line f) +:+ ": " +:+ description f;
    "     " +:+ code_snippet f;
    "     → " +:+ recommendation f ].

Definition file_lines (item : string * list Finding) : list string :=
  ("📄 " +:+ item.1)
  :: (stable_sort (λ x y, line x <? line y) item.2 ≫= finding_lines)
  ++ [""].

Definition summary_line (by_severity : gmap string nat) (sev : string)
    : list string :=
  let count := default O (by_severity !! sev) in
  if (0 <? count)%nat then ["  " +:+ upper sev +:+ ": " +:+ pretty count]
  else [].

Definition no_issues_message : string := "✅ No privacy issues found.".
Definition failed_line : string :=
  "❌ PRIVACY SCAN FAILED - Critical/High issues found".
Definition warnings_line : string := "⚠️ PRIVACY SCAN PASSED WITH WARNINGS".

(** The list [lines] of [format_text_report] when it is joined.  The items
    of [by_file] have distinct paths, so sorting them compares paths only. *)
Definition text_report_lines (findings : list Finding) : list string :=
  let by_severity := count_by_severity findings in
  let by_file := group_by_file findings in
  let critical_count := default O (by_severity !! "critical") in
  let high_count := default O (by_severity !! "high") in
  [ repeat_char "=" 60; "Privacy Scan Results"; repeat_char "=" 60; "" ]
  ++ ["Summary:"]
  ++ (severity_order ≫= summary_line by_severity)
  ++ [""]
  ++ (stable_sort (λ a b, str_lt a.1 b.1) (map_to_list by_file)
        ≫= file_lines)
  ++ [ if (0 <? critical_count)%nat || (0 <? high_count)%nat
       then failed_line else warnings_line ].

Definition format_text_report (findings : list Finding) : string :=
  match findings with
  | [] => no_issues_message
  | _ => join newline (text_report_lines findings)
  end.

Record Summary : Type := mkSummary {
  total : nat;
  critical : nat;
  high : nat;
  medium : nat;
  low : nat
}.

(** The dictionary [report] that [format_json_report] hands to
    [json.dumps]. *)
Record JsonReport : Type := mkJsonReport {
  summary : Summary;
  passed : bool;
  findings : list Finding
}.

Definition format_json_report (fs : list Finding) : JsonReport :=
  {| summary :=
       {| total := length fs;
          critical := count_severity "critical" fs;
          high := count_severity "high" fs;
          medium := count_severity "medium" fs;
          low := count_severity "low" fs |};
     passed :=
       forallb (λ f, negb (bool_decide (severity f ∈ ["critical"; "high"])))
         fs;
     findings := fs |}.

End Report.

(** ** The driver *)

Module Driver.
Import Text Rules Scan Files Post Report.

Inductive OutputFormat : Type := text | json.

(** The parsed command line.  [argparse] accepts the two output formats and
    the four severities only. *)
Record Args : Type := mkArgs {
  args_path : Path;
  args_output : OutputFormat;
  args_severity : Severity
}.

Inductive Printed : Type :=
| TextOut (report : string)
| JsonOut (report : JsonReport).

(** What a run leaves behind: the report on the standard output, the lines
    on the standard error stream and the exit code; or an exception that
    nothing catches. *)
Inductive Outcome : Type :=
| Exit (stdout : Printed) (stderr : list string) (code : Z)
| Raised.

(** The loop of [main] over [get_files]. *)
Definition scan_all (files : list (Path * FileData))
    : list Finding * list string :=
  foldl (λ acc '(file_path, data),
           let r := scan_file (path_str file_path) data in
           (acc.1 ++ r.1, acc.2 ++ r.2))
    ([], []) files.

Definition exit_code (findings : list Finding) : Z :=
  let critical_high :=
    length (filter (λ f, severity f ∈ ["critical"; "high"]) findings) in
  if (0 <? critical_high)%nat then 1 else 0.

Definition process (all_findings : list Finding) (min_severity : string)
    : option (list Finding) :=
  filter_by_severity (deduplicate_findings all_findings) min_severity
    ≫= sort_findings.

(** [main], on the file system entry found at [args.path]. *)
Definition main (at_path : option Node) (args : Args) : Outcome :=
  let '(all_findings, warnings) :=
    scan_all (get_files (args_path args) at_path) in
  match process all_findings (value (args_severity args)) with
  | Some findings =>
      Exit (match args_output args with
            | json => JsonOut (format_json_report findings)
            | text => TextOut (format_text_report findings)
            end)
        warnings (exit_code findings)
  | None => Raised
  end.

End Driver.

(** * Notions used in the statements *)

Import Text Re Rules Scan Files Post Report Driver.

Abbreviation chars := String.list_ascii_of_string.
Abbreviation of_chars := String.string_of_list_ascii.

(** [covers z u z']: the text [u] lies between the positions [z] and [z']. *)
Definition covers (z : pos) (u : list ascii) (z' : pos) : Prop :=
  z.2 = u ++ z'.2 ∧ z'.1 = reverse u ++ z.1.

Definition first_is_word (t : string) : bool :=
  match chars t with c :: _ => is_word c | [] => false end.

Definition last_is_word (t : string) : bool :=
  match reverse (chars t) with c :: _ => is_word c | [] => false end.

(** [text] holds one of the tokens with no word character directly before
    or after it. *)
Definition whole_token (tokens : list string) (text : string) : Prop :=
  ∃ pre tok post,
    text = pre +:+ tok +:+ post ∧ tok ∈ tokens
    ∧ last_is_word pre = false ∧ first_is_word post = false.

Definition token_ok (t : string) : bool := first_is_word t && last_is_word t.

(** The loop of [deduplicate_findings] as a recursion on the findings that
    are still to come. *)
Fixpoint keep_unseen (seen : gset (string * Z * string))
    (findings : list Finding) : list Finding :=
  match findings with
  | [] => []
  | f :: fs =>
      if bool_decide (key f ∉ seen) then f :: keep_unseen ({[key f]} ∪ seen) fs
      else keep_unseen seen fs
  end.

Definition rank (sev : Severity) : nat :=
  match sev with CRITICAL => 0 | HIGH => 1 | MEDIUM => 2 | LOW => 3 end.

(** The rank of a severity given by its name. *)
Definition severity_rank (name : string) : nat :=
  if bool_decide (name = "critical") then 0
  else if bool_decide (name = "high") then 1
  else if bool_decide (name = "medium") then 2
  else 3.

(** A finding is well formed when its severity is one of the four. *)
Definition well_formed (f : Finding) : Prop := ∃ sev, severity f = value sev.

(** The sort key on a well-formed finding. *)
Definition full_key (f : Finding) : nat * string * Z :=
  (severity_rank (severity f), file f, line f).

(** Severity rank first, then the file path, then the line number. *)
Definition finding_le (f g : Finding) : Prop :=
  (severity_rank (severity f) ≤ severity_rank (severity g))%nat
  ∧ (severity_rank (severity f) = severity_rank (severity g) →
     String.le (file f) (file g))
  ∧ (severity_rank (severity f) = severity_rank (severity g) →
     file f = file g → line f ≤ line g).

(** No finding of the list is critical or high. *)
Definition no_critical_high (fs : list Finding) : Prop :=
  ∀ f, f ∈ fs → severity f ≠ "critical" ∧ severity f ≠ "high".

(** The text after the last line break of a report. *)
Definition final_line (report : string) : string :=
  default "" (last (split_lines report)).

(** What a line is a comment line for the scanner. *)
Definition comment_marked (ln : string) : Prop :=
  startswith (strip ln) "//" = true
  ∨ startswith (strip ln) "#" = true
  ∨ startswith (strip ln) "*" = true.

(** Every character of [t] satisfies [p]. *)
Definition all_chars (p : ascii → bool) (t : string) : bool :=
  forallb p (chars t).

Definition is_not (c : ascii) : ascii → bool := λ d, negb (Ascii.eqb d c).

(** The names of the logging and printing calls the log rules know. *)
Definition log_calls : list string :=
  (String.append "console." <$> "log" :: log_levels)
  ++ (String.append "logger." <$> "log" :: log_levels)
  ++ (String.append "log." <$> log_levels)
  ++ ["print"; "println"; "printf"]
  ++ (String.append "logging." <$> log_levels).

Definition credential_tokens : list string :=
  ["password"; "passwd"; "pwd"; "secret"; "api_key"; "apikey"; "token"].

(** A finding of the Credential field rule. *)
Definition is_credential_finding (f : Finding) : Prop :=
  category f = "pii_field"
  ∧ description f = "Potential Credential field detected".

Definition store_callees : list string := ["db"; "database"; "store"; "save"].
Definition store_tokens : list string := ["ssn"; "password"; "credit_card"].

(** [needle] occurs in [hay]. *)
Definition occurs_in (needle hay : string) : Prop :=
  ∃ u v, hay = u +:+ needle +:+ v.

(** A search for [needle] in [hay] that computes. *)
Fixpoint find_in (needle hay : string) : bool :=
  String.prefix needle hay
  || match hay with
     | EmptyString => false
     | String _ hay' => find_in needle hay'
     end.

(** ** Notions for the further properties *)

(** [below top rel n]: the entry [n] is found under the directory [top] by
    following the names [rel]. *)
Inductive below : Node → Path → Node → Prop :=
| below_entry entries name child :
    (name, child) ∈ entries → below (Dir entries) [name] child
| below_deeper entries name child rel n :
    (name, child) ∈ entries → below child rel n →
    below (Dir entries) (name :: rel) n.

(** [dir_at top rel entries]: the directory listing [entries] is that of
    [top] itself or of a directory below it. *)
Inductive dir_at : Node → Path → list (string * Node) → Prop :=
| dir_at_top entries : dir_at (Dir entries) [] entries
| dir_at_deeper entries name child rel es :
    (name, child) ∈ entries → dir_at child rel es →
    dir_at (Dir entries) (name :: rel) es.

(** The three runs of findings a line appends: those of the field rules,
    of the log rules and of the unencrypted-storage rules. *)
Definition field_hits (file_path : string) (n : Z) (ln : string)
    : list Finding :=
  omap (λ '(pattern, pii_type, sev),
          if re_search pattern (lower ln)
          then Some (field_finding file_path n ln pii_type sev)
          else None) PII_FIELD_PATTERNS.

Definition log_hits (file_path : string) (n : Z) (ln : string)
    : list Finding :=
  omap (λ pattern,
          if re_search pattern (lower ln)
          then Some (log_finding file_path n ln) else None) LOG_PATTERNS.

Definition unencrypted_hits (file_path : string) (n : Z) (ln : string)
    : list Finding :=
  omap (λ pattern,
          if re_search pattern (lower ln)
          then Some (unencrypted_finding file_path n ln) else None)
    UNENCRYPTED_PATTERNS.

(** The findings of the lines, each line deduplicated on its own. *)
Fixpoint scan_lines_dedup (file_path : string) (line_num : Z)
    (lines : list string) : list Finding :=
  match lines with
  | [] => []
  | l :: ls =>
      deduplicate_findings (scan_line file_path line_num l)
      ++ scan_lines_dedup file_path (line_num + 1) ls
  end.

(** The order in which [main] sorts well-formed findings. *)
Definition by_sort_key (a b : Finding) : bool :=
  key_lt (full_key a) (full_key b).

(** The exit code and the warnings of a run that ended. *)
Definition code_of (o : Outcome) : option Z :=
  match o with Exit _ _ code => Some code | Raised => None end.

Definition warnings_of (o : Outcome) : option (list string) :=
  match o with Exit _ warnings _ => Some warnings | Raised => None end.


(** The words of the request-read rule. *)
Definition request_objects : list string := ["request"; "req"].
Definition request_fields : list string := ["body"; "form"; "params"; "query"].
Definition request_tokens : list string :=
  ["ssn"; "password"; "credit_card"; "card_number"].

(** Nothing, a single quote or a double quote. *)
Definition optional_quotes : list string :=
  [""; "'"; String "034" EmptyString].

(** * Properties *)

#[local] Set Warnings "-clear-no-such-hyp".

(** ** The matcher decides the declarative meaning *)

Section Matcher.
Implicit Types (r : regex) (z : pos) (k : pos → bool).

(** A match only moves forward: the text it consumes is taken from the
    front of what follows the start and pushed onto what precedes it. *)
Lemma den_advance r z z' :
  den r z z' → ∃ u, z.2 = u ++ z'.2 ∧ z'.1 = reverse u ++ z.1.
Proof.
  revert z z'. induction r as [|p| |r1 IH1 r2 IH2|r1 IH1 r2 IH2|r IH|r IH];
    intros z z'; simpl.
  - intros ->. by exists [].
  - intros (c & t & Hz & _ & ->). exists [c]. by rewrite Hz.
  - intros [_ ->]. by exists [].
  - intros (m & H1 & H2).
    destruct (IH1 _ _ H1) as (u1 & E1 & F1).
    destruct (IH2 _ _ H2) as (u2 & E2 & F2).
    exists (u1 ++ u2). rewrite E1, E2, F2, F1, reverse_app.
    by rewrite !(assoc_L (++)).
  - intros [H|H]; eauto.
  - induction 1 as [z|z m z' H _ IHrtc]; [by exists []|].
    destruct (IH _ _ H) as (u1 & E1 & F1).
    destruct IHrtc as (u2 & E2 & F2).
    exists (u1 ++ u2). rewrite E1, E2, F2, F1, reverse_app.
    by rewrite !(assoc_L (++)).
  - intros [-> _]. by exists [].
Qed.

Lemma den_length r z z' : den r z z' → (length z'.2 ≤ length z.2)%nat.
Proof.
  intros (u & E & _)%den_advance. rewrite E, length_app. lia.
Qed.

(** A match that consumes nothing ends where it started. *)
Lemma den_no_progress r z z' :
  den r z z' → length z'.2 = length z.2 → z' = z.
Proof.
  intros (u & E & F)%den_advance Hlen.
  rewrite E, length_app in Hlen.
  destruct u; [|simpl in Hlen; lia].
  destruct z, z'; simpl in *. by subst.
Qed.

Lemma iter_star_spec r (step : pos → (pos → bool) → bool) :
  (∀ z k, step z k = true ↔ ∃ z', den r z z' ∧ k z' = true) →
  ∀ fuel z k, (length z.2 ≤ fuel)%nat →
    iter_star step fuel z k = true ↔ ∃ z', rtc (den r) z z' ∧ k z' = true.
Proof.
  intros Hstep fuel. induction fuel as [|n IH]; intros z k Hfuel; simpl.
  - split; [intros Hk; exists z; split; [constructor|done]|].
    intros (z' & Hrtc & Hk).
    assert (z' = z) as ->; [|done].
    clear Hk. induction Hrtc as [|z m z' H _ IHr]; [done|].
    pose proof (den_length _ _ _ H).
    assert (m = z) as -> by (apply (den_no_progress r); [done|lia]).
    auto.
  - rewrite orb_true_iff, Hstep. split.
    + intros [(m & Hm & [Hlt Hit]%andb_true_iff)|Hk].
      * apply Nat.ltb_lt in Hlt.
        apply IH in Hit as (z' & Hrtc & Hk); [|lia].
        exists z'. split; [by econstructor|done].
      * exists z. split; [constructor|done].
    + intros (z' & Hrtc & Hk).
      induction Hrtc as [|z m z' H Hrtc IHr]; [by right|].
      pose proof (den_length _ _ _ H) as Hle.
      destruct (decide (length m.2 = length z.2)) as [Heq|Hne].
      * assert (m = z) as -> by by apply (den_no_progress r). auto.
      * left. exists m. split; [done|].
        apply andb_true_iff. split; [apply Nat.ltb_lt; lia|].
        apply IH; [lia|]. eauto.
Qed.

Theorem mt_spec r z k :
  mt r z k = true ↔ ∃ z', den r z z' ∧ k z' = true.
Proof.
  revert z k. induction r as [|p| |r1 IH1 r2 IH2|r1 IH1 r2 IH2|r IH|r IH];
    intros z k; simpl.
  - naive_solver.
  - destruct z as [b [|c t]]; simpl; [naive_solver|].
    rewrite andb_true_iff. naive_solver.
  - rewrite andb_true_iff. naive_solver.
  - rewrite IH1. setoid_rewrite IH2. naive_solver.
  - rewrite orb_true_iff, IH1, IH2. naive_solver.
  - by apply iter_star_spec.
  - rewrite andb_true_iff, negb_true_iff, <-not_true_iff_false, IH.
    naive_solver.
Qed.

Lemma search_from_spec r before after :
  search_from r before after = true ↔
  ∃ u v z', after = u ++ v ∧ den r (reverse u ++ before, v) z'.
Proof.
  revert before. induction after as [|c t IH]; intros before; simpl.
  - rewrite orb_false_r, mt_spec. split.
    + intros (z' & H & _). by exists [], [], z'.
    + intros (u & v & z' & E & H).
      symmetry in E. apply app_eq_nil in E as [-> ->]. eauto.
  - rewrite orb_true_iff, mt_spec, IH. split.
    + intros [(z' & H & _)|(u & v & z' & -> & H)].
      * by exists [], (c :: t), z'.
      * exists (c :: u), v, z'. split; [done|].
        by rewrite reverse_cons, <-(assoc_L (++)).
    + intros ([|d u] & v & z' & E & H); simplify_eq/=.
      * left. eauto.
      * right. exists u, v, z'. split; [done|].
        by rewrite reverse_cons, <-(assoc_L (++)) in H.
Qed.

End Matcher.

(** ** Patterns read as sets of texts *)

Lemma chars_app (a b : string) : chars (a +:+ b) = chars a ++ chars b.
Proof. induction a as [|c a IH]; simpl; [done|]. by rewrite <-IH. Qed.

Lemma of_chars_app (u v : list ascii) :
  of_chars (u ++ v) = of_chars u +:+ of_chars v.
Proof. induction u as [|c u IH]; simpl; [done|]. by rewrite IH. Qed.

Lemma chars_inj (a b : string) : chars a = chars b → a = b.
Proof.
  intros H. rewrite <-(String.string_of_list_ascii_of_string a),
    <-(String.string_of_list_ascii_of_string b). by rewrite H.
Qed.

Lemma chars_of_chars (u : list ascii) : chars (of_chars u) = u.
Proof. apply String.list_ascii_of_string_of_list_ascii. Qed.

Section Denotations.
Implicit Types (r : regex) (z : pos) (b u v : list ascii).

Lemma covers_run b u v : covers (b, u ++ v) u (reverse u ++ b, v).
Proof. done. Qed.

Lemma covers_inv b v u z' : covers (b, v) u z' → v = u ++ z'.2 ∧ z' = (reverse u ++ b, z'.2).
Proof. destruct z'; intros [? ?]; simpl in *. by subst. Qed.

Lemma den_chr c z z' : den (chr c) z z' ↔ covers z [c] z'.
Proof.
  unfold covers. simpl. split.
  - intros (d & t & E & ->%Ascii.eqb_eq & ->). done.
  - intros [E F]. exists c, z'.2. rewrite Ascii.eqb_refl.
    destruct z'; simpl in *. by subst.
Qed.

Lemma den_lit_chars cs z z' : den (lit_chars cs) z z' ↔ covers z cs z'.
Proof.
  revert z. induction cs as [|c cs IH]; intros z.
  - unfold covers. destruct z as [b1 a1], z' as [b2 a2]. simpl.
    split; [by intros [= -> ->]|by intros [-> ->]]. (*X*)
  - change (den (lit_chars (c :: cs)) z z')
      with (∃ m, den (chr c) z m ∧ den (lit_chars cs) m z').
    setoid_rewrite den_chr. setoid_rewrite IH. unfold covers. split.
    + intros ([bm am] & [E1 F1] & [E2 F2]).
      destruct z as [bz az], z' as [bz' az']. simpl in *. subst.
      split; [done|]. by rewrite reverse_cons, <-(assoc_L (++)).
    + intros [E F]. exists (c :: z.1, cs ++ z'.2).
      destruct z as [bz az], z' as [bz' az']. simpl in *. subst.
      split_and!; try done. by rewrite reverse_cons, <-(assoc_L (++)).
Qed.

Lemma den_lit t z z' : den (lit t) z z' ↔ covers z (chars t) z'.
Proof. apply den_lit_chars. Qed.

Lemma den_alts rs z z' : den (alts rs) z z' ↔ ∃ r, r ∈ rs ∧ den r z z'.
Proof.
  induction rs as [|r rs IH].
  - simpl. split; [intros [_ []]; by exists z|].
    by intros (? & ?%elem_of_nil & _).
  - destruct rs as [|r' rs].
    + simpl. setoid_rewrite list_elem_of_singleton. naive_solver.
    + change (den (alts (r :: r' :: rs)) z z')
        with (den r z z' ∨ den (alts (r' :: rs)) z z').
      rewrite IH. setoid_rewrite (elem_of_cons (r' :: rs)). naive_solver.
Qed.

Lemma den_words ts z z' :
  den (words ts) z z' ↔ ∃ t, t ∈ ts ∧ covers z (chars t) z'.
Proof.
  unfold words. rewrite den_alts. setoid_rewrite list_elem_of_fmap. split.
  - intros (r & (t & -> & Ht) & H). exists t. by rewrite <-den_lit.
  - intros (t & Ht & H). exists (lit t). rewrite den_lit. eauto.
Qed.

Lemma den_cat_cons r rs z z' :
  den (cat (r :: rs)) z z' ↔ ∃ m, den r z m ∧ den (cat rs) m z'.
Proof. destruct rs; simpl; naive_solver. Qed.

(** [p*] over a character class covers exactly the runs of such characters. *)
Lemma den_star_class (p : ascii → bool) z z' :
  den (Star (Chr p)) z z' ↔ ∃ u, forallb p u = true ∧ covers z u z'.
Proof.
  unfold covers. simpl. split.
  - induction 1 as [z|z m z' (c & t & E & Hp & ->) _ (u & Hu & E' & F')].
    + by exists [].
    + exists (c :: u). simpl in *. rewrite Hp, Hu, E, E', F'.
      by rewrite reverse_cons, <-(assoc_L (++)).
  - intros (u & Hu & E & F). revert z E F.
    induction u as [|c u IH]; intros z E F.
    + destruct z, z'; simpl in *; subst. constructor.
    + simpl in Hu. apply andb_true_iff in Hu as [Hc Hu].
      apply rtc_l with (c :: z.1, u ++ z'.2).
      * exists c, (u ++ z'.2). done.
      * apply IH; [done..|].
        by rewrite F, reverse_cons, <-(assoc_L (++)).
Qed.

End Denotations.

(** ** Field rules fire on whole tokens *)

Lemma word_after_token b t rest :
  first_is_word t = true → word_after (b, chars t ++ rest) = true.
Proof.
  unfold first_is_word, word_after. simpl. by destruct (chars t).
Qed.

Lemma word_before_token b t rest :
  last_is_word t = true → word_before (reverse (chars t) ++ b, rest) = true.
Proof.
  unfold last_is_word, word_before. simpl. by destruct (reverse (chars t)).
Qed.

Lemma field_pattern_den tokens b rest z' :
  forallb token_ok tokens = true →
  den (field_pattern tokens) (b, rest) z' ↔
  ∃ t, t ∈ tokens ∧ rest = chars t ++ z'.2
       ∧ z' = (reverse (chars t) ++ b, z'.2)
       ∧ word_before (b, rest) = false ∧ word_after z' = false.
Proof.
  intros Hok. unfold field_pattern.
  rewrite den_cat_cons. setoid_rewrite den_cat_cons.
  setoid_rewrite den_words. simpl. split.
  - intros (? & [Hb ->] & m & (t & Ht & Hc) & Hb' & ->).
    apply covers_inv in Hc as [-> Hm]. exists t.
    assert (token_ok t = true) as [H1 H2]%andb_true_iff.
    { rewrite forallb_forall in Hok. by apply Hok, list_elem_of_In. }
    unfold at_boundary in Hb, Hb'.
    rewrite word_after_token in Hb by done.
    rewrite Hm, word_before_token in Hb' by done.
    rewrite Hm. repeat split; try done.
    + by destruct (word_before _).
    + by destruct (word_after _).
  - intros (t & Ht & -> & -> & Hb & Ha).
    assert (token_ok t = true) as [H1 H2]%andb_true_iff.
    { rewrite forallb_forall in Hok. by apply Hok, list_elem_of_In. }
    exists (b, chars t ++ z'.2). split.
    { split; [|done]. unfold at_boundary.
      by rewrite Hb, word_after_token. }
    exists (reverse (chars t) ++ b, z'.2). split.
    { exists t. split; [done|]. apply covers_run. }
    split; [|done]. unfold at_boundary. simpl in *.
    by rewrite Ha, word_before_token.
Qed.

(** A field rule finds its pattern exactly in the texts that hold one of
    its tokens as a whole token. *)
Theorem field_pattern_spec tokens text :
  forallb token_ok tokens = true →
  re_search (field_pattern tokens) text = true ↔ whole_token tokens text.
Proof.
  intros Hok. unfold re_search, whole_token. rewrite search_from_spec.
  setoid_rewrite field_pattern_den; [|done]. split.
  - intros (u & v & z' & E & t & Ht & -> & -> & Hb & Ha).
    exists (of_chars u), t, (of_chars z'.2). split_and!; [|done|..].
    + apply chars_inj. by rewrite !chars_app, !chars_of_chars.
    + unfold last_is_word. rewrite chars_of_chars.
      unfold word_before in Hb. simpl in Hb. by rewrite app_nil_r in Hb.
    + unfold first_is_word. by rewrite chars_of_chars.
  - intros (pre & t & post & -> & Ht & Hb & Ha).
    exists (chars pre), (chars t ++ chars post),
      (reverse (chars t) ++ reverse (chars pre) ++ [], chars post).
    split; [by rewrite !chars_app|].
    exists t. split_and!; try done.
    unfold word_before. simpl. by rewrite app_nil_r.
Qed.

(** ** What one line contributes *)

Section ScanLine.
Context (file_path : string) (n : Z) (ln : string).

Lemma scan_line_comment :
  is_comment_line ln = true → scan_line file_path n ln = [].
Proof. unfold scan_line. by intros ->. Qed.

(** The findings of a line, rule by rule. *)
Lemma elem_of_scan_line f :
  f ∈ scan_line file_path n ln ↔
  is_comment_line ln = false ∧
  ((∃ pattern pii_type sev,
      (pattern, pii_type, sev) ∈ PII_FIELD_PATTERNS
      ∧ re_search pattern (lower ln) = true
      ∧ f = field_finding file_path n ln pii_type sev)
   ∨ (∃ pattern,
        pattern ∈ LOG_PATTERNS ∧ re_search pattern (lower ln) = true
        ∧ f = log_finding file_path n ln)
   ∨ (∃ pattern,
        pattern ∈ UNENCRYPTED_PATTERNS
        ∧ re_search pattern (lower ln) = true
        ∧ f = unencrypted_finding file_path n ln)).
Proof.
  unfold scan_line. destruct (is_comment_line ln).
  { split; [by intros ?%elem_of_nil|by intros [? _]]. }
  rewrite !elem_of_app, !list_elem_of_omap. split.
  - intros [([[pattern pii_type] sev] & Hin & H)|[(pattern & Hin & H)
                                                 |(pattern & Hin & H)]];
      destruct (re_search pattern _) eqn:Hs; simplify_eq; split; try done.
    + left. by exists pattern, pii_type, sev.
    + right; left. by exists pattern.
    + right; right. by exists pattern.
  - intros [_ [(pattern & pii_type & sev & Hin & Hs & ->)
              |[(pattern & Hin & Hs & ->)|(pattern & Hin & Hs & ->)]]].
    + left. exists (pattern, pii_type, sev). by rewrite Hs.
    + right; left. exists pattern. by rewrite Hs.
    + right; right. exists pattern. by rewrite Hs.
Qed.

Lemma scan_line_field pattern pii_type sev :
  is_comment_line ln = false →
  (pattern, pii_type, sev) ∈ PII_FIELD_PATTERNS →
  re_search pattern (lower ln) = true →
  field_finding file_path n ln pii_type sev ∈ scan_line file_path n ln.
Proof. intros. apply elem_of_scan_line. split; [done|]. left. eauto 10. Qed.

Lemma scan_line_log pattern :
  is_comment_line ln = false →
  pattern ∈ LOG_PATTERNS →
  re_search pattern (lower ln) = true →
  log_finding file_path n ln ∈ scan_line file_path n ln.
Proof. intros. apply elem_of_scan_line. split; [done|]. right; left. eauto. Qed.

Lemma scan_line_unencrypted pattern :
  is_comment_line ln = false →
  pattern ∈ UNENCRYPTED_PATTERNS →
  re_search pattern (lower ln) = true →
  unencrypted_finding file_path n ln ∈ scan_line file_path n ln.
Proof. intros. apply elem_of_scan_line. split; [done|]. right; right. eauto. Qed.

(** Every finding of a line carries the path and the number of the line
    and one of the four severities. *)
Lemma scan_line_shape f :
  f ∈ scan_line file_path n ln →
  file f = file_path ∧ line f = n ∧ (∃ sev, severity f = value sev)
  ∧ (category f = "unencrypted_pii" →
     f = unencrypted_finding file_path n ln).
Proof.
  intros [_ [(? & ? & sev & _ & _ & ->)|[(? & _ & _ & ->)|(? & _ & _ & ->)]]]
    %elem_of_scan_line; simpl; split_and!; eauto; try done.
  - by exists HIGH.
  - by exists CRITICAL.
Qed.

End ScanLine.

(** The findings of a file are those of its lines, numbered from the
    start. *)
Lemma elem_of_scan_lines file_path start lines f :
  f ∈ scan_lines file_path start lines ↔
  ∃ (i : nat) l, lines !! i = Some l
                 ∧ f ∈ scan_line file_path (start + Z.of_nat i) l.
Proof.
  revert start. induction lines as [|l ls IH]; intros start; simpl.
  - split; [by intros ?%elem_of_nil|by intros (? & ? & ? & _)].
  - rewrite elem_of_app, IH. split.
    + intros [H|(i & l' & Hi & H)].
      * exists O, l. by rewrite Z.add_0_r.
      * exists (S i), l'. split; [done|].
        by replace (start + Z.of_nat (S i)) with (start + 1 + Z.of_nat i)
          by lia.
    + intros ([|i] & l' & Hi & H); simplify_eq/=.
      * left. by rewrite Z.add_0_r in H.
      * right. exists i, l'. split; [done|].
        by replace (start + 1 + Z.of_nat i) with (start + Z.of_nat (S i))
          by lia.
Qed.

(** ** Deduplication *)

Lemma foldl_dedup_step seen unique findings :
  (foldl dedup_step (seen, unique) findings).2
  = unique ++ keep_unseen seen findings.
Proof.
  revert seen unique. induction findings as [|f fs IH]; intros seen unique.
  - simpl. by rewrite app_nil_r.
  - simpl. case_bool_decide.
    + by rewrite IH, <-(assoc_L (++)).
    + apply IH.
Qed.

Lemma deduplicate_keep_unseen findings :
  deduplicate_findings findings = keep_unseen ∅ findings.
Proof. unfold deduplicate_findings. by rewrite foldl_dedup_step. Qed.

Lemma keep_unseen_first_occurrences (earlier later : list Finding) :
  keep_unseen (list_to_set (key <$> earlier)) later
  = (filter (λ p, key p.2 ∉ key <$> take p.1 (earlier ++ later))
       (imap (λ i f, (length earlier + i, f)%nat) later)).*2.
Proof.
  revert earlier. induction later as [|f fs IH]; intros earlier; [done|].
  simpl. rewrite filter_cons. simpl.
  rewrite Nat.add_0_r, take_app_length.
  assert (keep_unseen (list_to_set (key <$> earlier ++ [f])) fs
          = (filter (λ p, key p.2 ∉ key <$> take p.1 (earlier ++ f :: fs))
               (imap ((λ i f, (length earlier + i, f)%nat) ∘ S) fs)).*2)
    as Htail.
  { rewrite IH. rewrite <-(assoc_L (++)). simpl. do 2 f_equal.
    apply imap_ext. intros i x _. simpl. rewrite length_app. simpl.
    f_equal. lia. }
  rewrite fmap_app, list_to_set_app_L in Htail. simpl in Htail.
  rewrite (right_id_L ∅ (∪)), (comm_L (∪)) in Htail.
  case_bool_decide as Hseen; case_decide as Hin;
    rewrite elem_of_list_to_set in Hseen; try (exfalso; tauto).
  - simpl. by rewrite Htail.
  - rewrite <-Htail. f_equal.
    apply set_eq. intros k. rewrite elem_of_union, elem_of_singleton.
    rewrite !elem_of_list_to_set. naive_solver.
Qed.

Lemma keep_unseen_sublist seen findings :
  keep_unseen seen findings `sublist_of` findings.
Proof.
  revert seen. induction findings as [|f fs IH]; intros seen; simpl.
  - done.
  - case_bool_decide; [by apply sublist_skip|by apply sublist_cons].
Qed.

Lemma keep_unseen_keys seen findings k :
  k ∈ (key <$> keep_unseen seen findings) ↔
  k ∈ (key <$> findings) ∧ k ∉ seen.
Proof.
  revert seen. induction findings as [|f fs IH]; intros seen; simpl.
  - rewrite elem_of_nil. naive_solver.
  - case_bool_decide as Hf; rewrite ?fmap_cons, !elem_of_cons, IH.
    + rewrite not_elem_of_union, not_elem_of_singleton.
      destruct (decide (k = key f)) as [->|]; naive_solver.
    + destruct (decide (k = key f)) as [->|]; naive_solver.
Qed.

Lemma keep_unseen_NoDup seen findings :
  NoDup (key <$> keep_unseen seen findings).
Proof.
  revert seen. induction findings as [|f fs IH]; intros seen; simpl.
  - constructor.
  - case_bool_decide; [|done]. rewrite fmap_cons. constructor; [|done].
    rewrite keep_unseen_keys, not_elem_of_union, not_elem_of_singleton.
    naive_solver.
Qed.

Lemma keep_unseen_id seen findings :
  NoDup (key <$> findings) → (∀ f, f ∈ findings → key f ∉ seen) →
  keep_unseen seen findings = findings.
Proof.
  revert seen. induction findings as [|f fs IH]; intros seen Hnd Hseen;
    [done|].
  simpl. rewrite fmap_cons in Hnd. apply NoDup_cons in Hnd as [Hf Hnd].
  rewrite bool_decide_true by (apply Hseen; left).
  f_equal. apply IH; [done|]. intros g Hg.
  assert (key g ≠ key f).
  { intros E. apply Hf. rewrite <-E. by apply list_elem_of_fmap_2. }
  pose proof (Hseen g (list_elem_of_further _ _ _ Hg)).
  rewrite not_elem_of_union, not_elem_of_singleton. done.
Qed.

(** C4. For every findings list, deduplication returns exactly the
    findings that are the first occurrence of their [(file, line,
    category)] key, in the order of the input; it is therefore a
    subsequence of the input, applying it twice is the same as applying it
    once, and no two findings of its result have the same key. *)
Theorem C4_deduplicate_keeps_first_occurrences (findings : list Finding) :
  deduplicate_findings findings = first_occurrences findings
  ∧ deduplicate_findings findings `sublist_of` findings
  ∧ deduplicate_findings (deduplicate_findings findings)
    = deduplicate_findings findings
  ∧ NoDup (key <$> deduplicate_findings findings).
Proof.
  rewrite !deduplicate_keep_unseen. split_and!.
  - apply (keep_unseen_first_occurrences []).
  - apply keep_unseen_sublist.
  - apply keep_unseen_id; [apply keep_unseen_NoDup|]. intros. apply not_elem_of_empty.
  - apply keep_unseen_NoDup.
Qed.

(** ** Severities *)

Lemma index_value sev : index (value sev) severity_order = Some (rank sev).
Proof. by destruct sev. Qed.

Lemma severity_rank_value sev : severity_rank (value sev) = rank sev.
Proof. by destruct sev. Qed.

Lemma lower_value sev : lower (value sev) = value sev.
Proof. by destruct sev. Qed.

Lemma index_well_formed f :
  well_formed f →
  index (severity f) severity_order = Some (severity_rank (severity f)).
Proof. intros [sev ->]. by rewrite index_value, severity_rank_value. Qed.

(** ** The severity filter *)

Lemma filter_all {A} (P : A → Prop) `{!∀ x, Decision (P x)} (l : list A) :
  Forall P l → filter P l = l.
Proof.
  induction 1 as [|x l Hx _ IH]; [done|].
  by rewrite filter_cons_True, IH.
Qed.

Lemma keep_up_to_filter min_index findings :
  Forall well_formed findings →
  keep_up_to min_index findings
  = Some (filter (λ f, severity_rank (severity f) ≤ min_index)%nat findings).
Proof.
  induction 1 as [|f fs Hf _ IH]; [done|].
  cbn [keep_up_to]. rewrite index_well_formed, IH by done. simpl.
  rewrite filter_cons. by case_bool_decide; case_decide.
Qed.

Lemma filter_by_severity_filter findings sev :
  Forall well_formed findings →
  filter_by_severity findings (value sev)
  = Some (filter (λ f, severity_rank (severity f) ≤ rank sev)%nat findings).
Proof.
  intros Hwf. unfold filter_by_severity.
  rewrite lower_value, index_value. simpl. by apply keep_up_to_filter.
Qed.

(** C5. For every list of well-formed findings and every threshold among
    the four severities, the severity filter returns exactly the findings
    whose rank (critical = 0, high = 1, medium = 2, low = 3) is at most the
    rank of the threshold, that is, the findings at least as severe as the
    threshold; filtering the result again with the same threshold changes
    nothing, and the threshold [low] returns the input list. *)
Theorem C5_filter_by_severity (findings : list Finding) (threshold : Severity) :
  Forall well_formed findings →
  let kept :=
    filter (λ f, severity_rank (severity f) ≤ rank threshold)%nat findings in
  filter_by_severity findings (value threshold) = Some kept
  ∧ filter_by_severity kept (value threshold) = Some kept
  ∧ (filter_by_severity findings (value threshold)
       ≫= (λ fs, filter_by_severity fs (value threshold)))
    = filter_by_severity findings (value threshold)
  ∧ filter_by_severity findings "low" = Some findings.
Proof.
  intros Hwf kept.
  assert (Forall well_formed kept) as Hkept.
  { apply Forall_forall. intros f [_ Hf]%list_elem_of_filter.
    by eapply Forall_forall in Hwf. }
  assert (filter_by_severity kept (value threshold) = Some kept) as Hidem.
  { rewrite filter_by_severity_filter by done. f_equal.
    apply filter_all, Forall_forall.
    by intros f [Hf _]%list_elem_of_filter. }
  rewrite (filter_by_severity_filter findings) by done. split_and!; try done.
  change "low" with (value LOW). rewrite filter_by_severity_filter by done.
  f_equal. apply filter_all. eapply Forall_impl; [done|].
  intros f [sev E]. rewrite E, severity_rank_value. destruct sev; simpl; lia.
Qed.

Lemma C5_filter_by_severity_witness :
  let fs := [ log_finding "a.py" 1 "print(email)";
              unencrypted_finding "a.py" 2 "db.save(ssn)" ] in
  filter_by_severity fs (value CRITICAL)
  = Some [unencrypted_finding "a.py" 2 "db.save(ssn)"].
Proof.
  intros fs.
  refine (eq_trans (proj1 (C5_filter_by_severity fs CRITICAL _)) _).
  - repeat constructor; [by exists HIGH|by exists CRITICAL].
  - reflexivity.
Defined.

(** ** The stable sort *)

Section StableSort.
Context {A : Type} (lt : A → A → bool).

Lemma insert_sorted_Permutation x l : insert_sorted lt x l ≡ₚ x :: l.
Proof.
  induction l as [|y l IH]; simpl; [done|].
  destruct (lt y x); [|done]. rewrite IH. apply Permutation_swap.
Qed.

Lemma stable_sort_Permutation l : stable_sort lt l ≡ₚ l.
Proof.
  induction l as [|x l IH]; simpl; [done|].
  by rewrite insert_sorted_Permutation, IH.
Qed.

(** Elements that [lt] does not separate keep their relative order. *)
Lemma filter_insert_sorted (P : A → Prop) `{!∀ x, Decision (P x)} x l :
  (∀ a b, P a → P b → lt a b = false) →
  filter P (insert_sorted lt x l) = filter P (x :: l).
Proof.
  intros Hsame. induction l as [|y l IH]; simpl; [done|].
  destruct (lt y x) eqn:Hlt; [|done].
  rewrite (filter_cons _ y), IH, !filter_cons.
  destruct (decide (P y)) as [Hy|]; [|done].
  destruct (decide (P x)) as [Hx|]; [|done].
  by rewrite Hsame in Hlt.
Qed.

Lemma filter_stable_sort (P : A → Prop) `{!∀ x, Decision (P x)} l :
  (∀ a b, P a → P b → lt a b = false) →
  filter P (stable_sort lt l) = filter P l.
Proof.
  intros Hsame. induction l as [|x l IH]; simpl; [done|].
  rewrite filter_insert_sorted by done. by rewrite !filter_cons, IH.
Qed.

Context (le : relation A).
Hypothesis not_lt_le : ∀ x y, lt y x = false → le x y.
Hypothesis lt_le : ∀ x y, lt y x = true → le y x.

Lemma insert_sorted_Sorted x l :
  Sorted le l → Sorted le (insert_sorted lt x l).
Proof.
  induction 1 as [|y l Hl IH Hhd]; simpl; [by repeat constructor|].
  destruct (lt y x) eqn:Hlt.
  - constructor; [done|].
    destruct Hhd as [|z l Hyz]; simpl.
    + constructor. by apply lt_le.
    + destruct (lt z x); constructor; [done|by apply lt_le].
  - constructor; [by constructor|]. constructor. by apply not_lt_le.
Qed.

Lemma stable_sort_Sorted l : Sorted le (stable_sort lt l).
Proof.
  induction l as [|x l IH]; simpl; [constructor|].
  by apply insert_sorted_Sorted.
Qed.

End StableSort.

(** Sorting decorated elements by their decoration sorts the elements. *)
Lemma stable_sort_fmap {A B} (h : A → B) (lt1 : A → A → bool)
    (lt2 : B → B → bool) (l : list A) :
  (∀ a b, lt2 (h a) (h b) = lt1 a b) →
  stable_sort lt2 (h <$> l) = h <$> stable_sort lt1 l.
Proof.
  intros Hlt. induction l as [|x l IH]; csimpl; [done|]. rewrite IH.
  generalize (stable_sort lt1 l). intros s.
  induction s as [|y s IHs]; csimpl; [done|].
  rewrite Hlt. destruct (lt1 y x); csimpl; [by rewrite IHs|done].
Qed.

(** ** The order of the final sort *)

Lemma str_lt_false a b : str_lt b a = false → String.le a b.
Proof.
  unfold str_lt, String.ltb, String.le, String.leb.
  rewrite (String.compare_antisym a b).
  by destruct (String.compare b a).
Qed.

Lemma str_lt_true a b : str_lt a b = true → String.le a b.
Proof.
  unfold str_lt, String.ltb, String.le, String.leb.
  by destruct (String.compare a b).
Qed.

Lemma key_lt_irrefl k : key_lt k k = false.
Proof.
  destruct k as [[i p] m]. unfold key_lt.
  rewrite !bool_decide_false by naive_solver. apply Z.ltb_irrefl.
Qed.

Lemma key_lt_cases (a b : nat * string * Z) :
  key_lt a b = true ↔
  (a.1.1 < b.1.1)%nat
  ∨ (a.1.1 = b.1.1 ∧ a.1.2 ≠ b.1.2 ∧ str_lt a.1.2 b.1.2 = true)
  ∨ (a.1.1 = b.1.1 ∧ a.1.2 = b.1.2 ∧ a.2 < b.2).
Proof.
  destruct a as [[i p] m], b as [[j q] m']. unfold key_lt. simpl.
  destruct (decide (i = j)) as [->|Hij].
  - rewrite (bool_decide_false (j ≠ j)) by naive_solver.
    destruct (decide (p = q)) as [->|Hpq].
    + rewrite (bool_decide_false (q ≠ q)) by naive_solver.
      rewrite Z.ltb_lt. naive_solver lia.
    + rewrite (bool_decide_true (p ≠ q)) by done. naive_solver lia.
  - rewrite (bool_decide_true (i ≠ j)) by done.
    rewrite Nat.ltb_lt. naive_solver lia.
Qed.

Lemma key_lt_false_le f g :
  key_lt (full_key g) (full_key f) = false → finding_le f g.
Proof.
  intros H. apply not_true_iff_false in H. rewrite key_lt_cases in H.
  unfold full_key, finding_le in *. simpl in *.
  split_and!.
  - lia.
  - intros E. destruct (decide (file g = file f)) as [->|Hne]; [done|].
    apply str_lt_false. apply not_true_iff_false. intros Hlt.
    apply H. right; left. done.
  - intros E Ef. apply Z.le_ngt. intros Hlt. apply H. right; right. done.
Qed.

Lemma key_lt_true_le f g :
  key_lt (full_key f) (full_key g) = true → finding_le f g.
Proof.
  rewrite key_lt_cases. unfold full_key, finding_le. simpl.
  intros [H|[(E & Hne & Hlt)|(E & Ef & Hlt)]]; split_and!;
    try lia; try done; try (by intros; apply str_lt_true).
  intros _. by rewrite Ef.
Qed.

#[local] Instance finding_le_trans : Transitive finding_le.
Proof.
  intros f g h (H1 & H2 & H3) (H4 & H5 & H6). unfold finding_le in *.
  split_and!.
  - lia.
  - intros E. assert (severity_rank (severity f) = severity_rank (severity g)
                      ∧ severity_rank (severity g) = severity_rank (severity h))
      as [E1 E2] by lia.
    by etrans; [apply H2|apply H5].
  - intros E Ef.
    assert (severity_rank (severity f) = severity_rank (severity g)
            ∧ severity_rank (severity g) = severity_rank (severity h))
      as [E1 E2] by lia.
    assert (file g = file f) as Eg.
    { apply (anti_symm String.le); [|by apply H2].
      rewrite Ef. by apply H5. }
    specialize (H3 E1 (eq_sym Eg)).
    specialize (H6 E2 (eq_trans Eg Ef)). lia.
Qed.

Lemma sort_findings_stable_sort findings :
  Forall well_formed findings →
  sort_findings findings
  = Some (stable_sort (λ a b, key_lt (full_key a) (full_key b)) findings).
Proof.
  intros Hwf. unfold sort_findings.
  assert (mapM sort_key findings = Some (full_key <$> findings)) as ->.
  { apply mapM_Some. induction Hwf as [|f fs Hf _ IH]; constructor; [|done].
    unfold sort_key. by rewrite index_well_formed. }
  simpl. f_equal.
  assert (zip (full_key <$> findings) findings
          = (λ f, (full_key f, f)) <$> findings) as ->.
  { clear Hwf. induction findings as [|f fs IH]; csimpl; [done|].
    by rewrite <-IH. }
  rewrite (stable_sort_fmap _ (λ a b, key_lt (full_key a) (full_key b)))
    by done.
  rewrite <-list_fmap_compose. apply list_fmap_id.
Qed.

(** Outside the data model: a finding whose severity is not one of the
    four names makes [list.index] raise, in the filter and in the sort. *)
Lemma index_not_well_formed f :
  ¬ well_formed f → index (severity f) severity_order = None.
Proof.
  intros Hf. unfold index, severity_order.
  repeat case_bool_decide; try done; destruct Hf.
  - by exists CRITICAL.
  - by exists HIGH.
  - by exists MEDIUM.
  - by exists LOW.
Qed.

Lemma filter_by_severity_raises findings sev :
  Exists (λ f, ¬ well_formed f) findings →
  filter_by_severity findings (value sev) = None.
Proof.
  intros Hex. unfold filter_by_severity.
  rewrite lower_value, index_value. simpl.
  induction Hex as [f fs Hf|f fs _ IH]; cbn [keep_up_to].
  - by rewrite index_not_well_formed.
  - rewrite IH. by destruct (index (severity f) severity_order).
Qed.

Lemma sort_findings_raises findings :
  Exists (λ f, ¬ well_formed f) findings → sort_findings findings = None.
Proof.
  intros Hex. unfold sort_findings.
  assert (mapM sort_key findings = None) as ->; [|done].
  apply mapM_None. eapply Exists_impl; [done|].
  intros f Hf. unfold sort_key. by rewrite index_not_well_formed.
Qed.

Lemma StronglySorted_lookup {A} (R : relation A) (l : list A) i j x y :
  StronglySorted R l → (i < j)%nat →
  l !! i = Some x → l !! j = Some y → R x y.
Proof.
  intros Hl. revert i j. induction Hl as [|z l _ IH Hall]; intros i j Hij Hi Hj.
  - by rewrite lookup_nil in Hi.
  - destruct j as [|j]; [lia|]. destruct i as [|i]; simplify_eq/=.
    + eapply Forall_forall; [done|]. by eapply list_elem_of_lookup_2.
    + apply (IH i j); [lia|done..].
Qed.

(** C6. The final sort orders well-formed findings by the key (severity
    rank with critical = 0 ... low = 3, then file path, then line number):
    the result is a rearrangement of the input in which, wherever one
    finding comes before another, its rank is not larger, at equal rank its
    path is lexicographically not larger, and at equal rank and path its
    line number is not larger; and the sort is stable, so the findings with
    any one key appear in the order they had in the input. *)
Theorem C6_sort_ordered_and_stable (findings : list Finding) :
  Forall well_formed findings →
  ∃ sorted,
    sort_findings findings = Some sorted
    ∧ sorted ≡ₚ findings
    ∧ (∀ i j f g, (i < j)%nat → sorted !! i = Some f → sorted !! j = Some g →
         (severity_rank (severity f) ≤ severity_rank (severity g))%nat
         ∧ (severity_rank (severity f) = severity_rank (severity g) →
            String.le (file f) (file g))
         ∧ (severity_rank (severity f) = severity_rank (severity g) →
            file f = file g → line f ≤ line g))
    ∧ (∀ k, filter (λ f, full_key f = k) sorted
            = filter (λ f, full_key f = k) findings).
Proof.
  intros Hwf. eexists. split; [by apply sort_findings_stable_sort|].
  split_and!.
  - apply stable_sort_Permutation.
  - intros i j f g Hij Hi Hj.
    eapply (StronglySorted_lookup finding_le _ i j f g); [|done..].
    apply Sorted_StronglySorted; [apply _|].
    apply stable_sort_Sorted.
    + intros x y. apply key_lt_false_le.
    + intros x y. apply key_lt_true_le.
  - intros k. apply filter_stable_sort.
    intros a b -> ->. apply key_lt_irrefl.
Qed.

Lemma C6_sort_ordered_and_stable_witness :
  let fs := [ field_finding "b.py" 7 "first_name" "Name" MEDIUM;
              log_finding "b.py" 3 "print(email)";
              unencrypted_finding "a.py" 9 "db.save(ssn)";
              log_finding "a.py" 3 "print(phone)" ] in
  ∃ sorted, sort_findings fs = Some sorted ∧ sorted ≡ₚ fs.
Proof.
  intros fs.
  destruct (C6_sort_ordered_and_stable fs) as (sorted & Hs & Hp & _).
  - repeat constructor;
      [by exists MEDIUM|by exists HIGH|by exists CRITICAL|by exists HIGH].
  - by exists sorted.
Defined.

Example sort_findings_example :
  sort_findings
    [ field_finding "b.py" 7 "first_name" "Name" MEDIUM;
      log_finding "b.py" 3 "print(email)";
      unencrypted_finding "a.py" 9 "db.save(ssn)";
      log_finding "a.py" 3 "print(phone)" ]
  = Some [ unencrypted_finding "a.py" 9 "db.save(ssn)";
           log_finding "a.py" 3 "print(phone)";
           log_finding "b.py" 3 "print(email)";
           field_finding "b.py" 7 "first_name" "Name" MEDIUM ].
Proof. reflexivity. Qed.

(** Whatever algorithm sorts the findings, a result that rearranges them,
    is ordered, and keeps the order of findings with equal keys is the
    result of [stable_sort]: the model of [list.sort] loses nothing. *)
Lemma finding_le_antisym f g :
  finding_le f g → finding_le g f → full_key f = full_key g.
Proof.
  intros (H1 & H2 & H3) (H4 & H5 & H6). unfold full_key.
  assert (severity_rank (severity f) = severity_rank (severity g)) as E
    by lia.
  assert (file f = file g) as Ef
    by (apply (anti_symm String.le); [by apply H2|by apply H5]).
  assert (line f = line g) as El.
  { specialize (H3 E Ef). specialize (H6 (eq_sym E) (eq_sym Ef)). lia. }
  by rewrite E, Ef, El.
Qed.

Lemma stable_sorted_unique (l1 l2 : list Finding) :
  l1 ≡ₚ l2 → StronglySorted finding_le l1 → StronglySorted finding_le l2 →
  (∀ k, filter (λ f, full_key f = k) l1 = filter (λ f, full_key f = k) l2) →
  l1 = l2.
Proof.
  revert l2. induction l1 as [|x l1 IH]; intros l2 Hperm Hs1 Hs2 Hst.
  { by apply Permutation_nil_l in Hperm. }
  destruct l2 as [|y l2]; [by apply Permutation_nil_r in Hperm|].
  apply StronglySorted_inv in Hs1 as [Hs1 Hx].
  apply StronglySorted_inv in Hs2 as [Hs2 Hy].
  assert (finding_le x y) as Hxy.
  { assert (y ∈ x :: l1) as [->|Hin]%elem_of_cons
      by (rewrite Hperm; left).
    - unfold finding_le. split_and!; [lia|done|lia].
    - by eapply Forall_forall in Hx. }
  assert (finding_le y x) as Hyx.
  { assert (x ∈ y :: l2) as [->|Hin]%elem_of_cons
      by (rewrite <-Hperm; left).
    - unfold finding_le. split_and!; [lia|done|lia].
    - by eapply Forall_forall in Hy. }
  pose proof (finding_le_antisym _ _ Hxy Hyx) as Hk.
  pose proof (Hst (full_key x)) as Hhead.
  rewrite !filter_cons in Hhead.
  rewrite decide_True in Hhead by done.
  rewrite decide_True in Hhead by done.
  injection Hhead as -> _.
  f_equal. apply IH; [by eapply Permutation_cons_inv|done..|].
  intros k. specialize (Hst k). rewrite !filter_cons in Hst.
  destruct (decide (full_key y = k)); [by injection Hst|done].
Qed.

Lemma sort_findings_unique (findings sorted result : list Finding) :
  Forall well_formed findings →
  sort_findings findings = Some sorted →
  result ≡ₚ findings → StronglySorted finding_le result →
  (∀ k, filter (λ f, full_key f = k) result
        = filter (λ f, full_key f = k) findings) →
  result = sorted.
Proof.
  intros Hwf Hsorted Hperm Hs Hst.
  rewrite sort_findings_stable_sort in Hsorted by done.
  injection Hsorted as <-.
  apply stable_sorted_unique.
  - by rewrite stable_sort_Permutation.
  - done.
  - apply Sorted_StronglySorted; [apply _|]. apply stable_sort_Sorted.
    + intros x y. apply key_lt_false_le.
    + intros x y. apply key_lt_true_le.
  - intros k. rewrite Hst. symmetry. apply filter_stable_sort.
    intros a b Ha Hb. change (key_lt (full_key a) (full_key b) = false).
    rewrite Ha, Hb. apply key_lt_irrefl.
Qed.

(** ** The three verdicts *)

Lemma count_severity_zero sev fs :
  count_severity sev fs = O ↔ ∀ f, f ∈ fs → severity f ≠ sev.
Proof.
  unfold count_severity. induction fs as [|f fs IH].
  - split; [by intros _ ? ?%elem_of_nil|done].
  - rewrite filter_cons. case_decide as Hf; simpl.
    + split; [done|]. intros H. by destruct (H f); [left|].
    + rewrite IH. split.
      * intros H g [->|Hg]%elem_of_cons; auto.
      * intros H g Hg. apply H. by right.
Qed.

Lemma foldl_count_by_severity (m : gmap string nat) fs sev :
  default O
    (foldl (λ by_severity f,
              <[severity f := (default O (by_severity !! severity f) + 1)%nat]>
                by_severity) m fs !! sev)
  = (default O (m !! sev) + count_severity sev fs)%nat.
Proof.
  unfold count_severity. revert m. induction fs as [|f fs IH]; intros m; simpl.
  - lia.
  - rewrite IH, filter_cons. case_decide as Hf.
    + rewrite <-Hf, lookup_insert_eq. simpl. lia.
    + by rewrite lookup_insert_ne.
Qed.

Lemma count_by_severity_lookup fs sev :
  default O (count_by_severity fs !! sev) = count_severity sev fs.
Proof.
  unfold count_by_severity. by rewrite foldl_count_by_severity, lookup_empty.
Qed.

Lemma no_critical_high_counts fs :
  no_critical_high fs ↔
  count_severity "critical" fs = O ∧ count_severity "high" fs = O.
Proof.
  rewrite !count_severity_zero. unfold no_critical_high. split.
  - intros H. split; intros f Hf; by destruct (H f Hf).
  - intros [H1 H2] f Hf. split; [by apply H1|by apply H2].
Qed.

Lemma critical_or_high sev :
  sev ∈ ["critical"; "high"] ↔ sev = "critical" ∨ sev = "high".
Proof. rewrite elem_of_cons, list_elem_of_singleton. done. Qed.

Lemma passed_spec fs :
  passed (format_json_report fs) = true ↔ no_critical_high fs.
Proof.
  unfold no_critical_high. simpl. induction fs as [|f fs IH]; simpl.
  - split; [by intros _ ? ?%elem_of_nil|done].
  - rewrite andb_true_iff, IH, negb_true_iff, bool_decide_eq_false,
      critical_or_high. split.
    + intros [Hf H] g [->|Hg]%elem_of_cons; [tauto|auto].
    + intros H. split; [|intros g Hg; apply H; by right].
      destruct (H f); [left|tauto].
Qed.

Lemma exit_code_spec fs : exit_code fs = 0 ↔ no_critical_high fs.
Proof.
  unfold exit_code, no_critical_high.
  destruct (0 <? _)%nat eqn:Hlt.
  - split; [done|]. intros H. apply Nat.ltb_lt in Hlt. exfalso.
    destruct (filter _ fs) as [|f tl] eqn:Hfilter; [simpl in Hlt; lia|].
    assert (f ∈ filter (λ f, severity f ∈ ["critical"; "high"]) fs) as Hf
      by (rewrite Hfilter; left).
    apply list_elem_of_filter in Hf as [Hsev%critical_or_high Hf].
    destruct (H f Hf). tauto.
  - split; [|done]. intros _ f Hf. apply Nat.ltb_ge in Hlt.
    assert (f ∉ filter (λ f, severity f ∈ ["critical"; "high"]) fs) as Hnot.
    { destruct (filter _ fs); [apply not_elem_of_nil|simpl in Hlt; lia]. }
    rewrite list_elem_of_filter, critical_or_high in Hnot. tauto.
Qed.

Lemma exit_code_cases fs : exit_code fs = 0 ∨ exit_code fs = 1.
Proof. unfold exit_code. destruct (0 <? _)%nat; auto. Qed.

Lemma split_lines_nonempty t : split_lines t ≠ [].
Proof.
  destruct t as [|c t]; simpl; [done|].
  destruct (Ascii.eqb c "010"); [done|]. by destruct (split_lines t).
Qed.

Lemma split_lines_app a b :
  split_lines (a +:+ newline +:+ b) = split_lines a ++ split_lines b.
Proof.
  induction a as [|c a IH].
  - done.
  - change (String c a +:+ newline +:+ b)
      with (String c (a +:+ newline +:+ b)).
    simpl. rewrite IH. destruct (Ascii.eqb c "010"); [done|].
    pose proof (split_lines_nonempty a). by destruct (split_lines a).
Qed.

Lemma last_split_lines_app a b :
  last (split_lines (a +:+ newline +:+ b)) = last (split_lines b).
Proof.
  rewrite split_lines_app. pose proof (split_lines_nonempty b) as Hb.
  destruct (split_lines b) as [|l ls] using rev_ind; [done|].
  by rewrite (assoc_L (++)), !last_snoc.
Qed.

Lemma final_line_join ls x :
  final_line (join newline (ls ++ [x])) = final_line x.
Proof.
  unfold final_line, join. induction ls as [|l ls IH]; [done|].
  assert (String.concat newline ((l :: ls) ++ [x])
          = l +:+ newline +:+ String.concat newline (ls ++ [x])) as ->.
  { simpl. by destruct ls. }
  by rewrite last_split_lines_app.
Qed.

Lemma text_report_final_line fs :
  fs ≠ [] →
  final_line (format_text_report fs)
  = if passed (format_json_report fs) then warnings_line else failed_line.
Proof.
  intros Hne. unfold format_text_report. destruct fs as [|f fs]; [done|].
  unfold text_report_lines. rewrite !(assoc_L (++)), final_line_join.
  rewrite !count_by_severity_lookup.
  destruct (passed _) eqn:Hok.
  - apply passed_spec, no_critical_high_counts in Hok as [-> ->].
    reflexivity.
  - apply not_true_iff_false in Hok.
    rewrite passed_spec, no_critical_high_counts in Hok.
    destruct (count_severity "critical" _), (count_severity "high" _);
      try reflexivity. by destruct Hok.
Qed.

(** C2. For every final findings list the three verdicts agree, each
    being positive exactly when no finding is critical or high: the
    [passed] field of the structured report is true; the exit code is 0
    (and 1 otherwise); the text report is the no-issues message for the
    empty list, and otherwise ends with the passed-with-warnings line, and
    it ends with the failure line exactly when some finding is critical or
    high. *)
Theorem C2_verdicts_agree (fs : list Finding) :
  (passed (format_json_report fs) = true ↔ no_critical_high fs)
  ∧ (exit_code fs = 0 ↔ no_critical_high fs)
  ∧ (exit_code fs = 1 ↔ ¬ no_critical_high fs)
  ∧ ((fs = [] ∧ format_text_report fs = no_issues_message
      ∨ fs ≠ [] ∧ final_line (format_text_report fs) = warnings_line)
     ↔ no_critical_high fs)
  ∧ (final_line (format_text_report fs) = failed_line
     ↔ ¬ no_critical_high fs).
Proof.
  split_and!.
  - apply passed_spec.
  - apply exit_code_spec.
  - rewrite <-exit_code_spec.
    destruct (exit_code_cases fs) as [-> | ->]; split; done.
  - destruct fs as [|f fs].
    { split; [by intros _ ? ?%elem_of_nil|by left]. }
    rewrite <-passed_spec, text_report_final_line by done.
    destruct (passed _); split; try done.
    + by right.
    + intros [[[=] _]|[_ ?]]. done.
  - destruct fs as [|f fs].
    { split; [done|]. intros H. destruct H. by intros ? ?%elem_of_nil. }
    rewrite <-passed_spec, text_report_final_line by done.
    destruct (passed _); split; done.
Qed.

(** ** Whole runs *)

Lemma scan_line_well_formed file_path n ln :
  Forall well_formed (scan_line file_path n ln).
Proof.
  apply Forall_forall. intros f Hf.
  by destruct (scan_line_shape _ _ _ _ Hf) as (_ & _ & ? & _).
Qed.

Lemma scan_lines_well_formed file_path start lines :
  Forall well_formed (scan_lines file_path start lines).
Proof.
  revert start. induction lines as [|l ls IH]; intros start; simpl.
  - constructor.
  - apply Forall_app. split; [apply scan_line_well_formed|apply IH].
Qed.

Lemma scan_file_well_formed file_str data :
  Forall well_formed (scan_file file_str data).1.
Proof.
  destruct data; simpl; [apply scan_lines_well_formed|constructor].
Qed.

Lemma scan_all_well_formed files : Forall well_formed (scan_all files).1.
Proof.
  unfold scan_all.
  assert (∀ acc : list Finding * list string,
            Forall well_formed acc.1 →
            Forall well_formed
              (foldl (λ acc '(file_path, data),
                        let r := scan_file (path_str file_path) data in
                        (acc.1 ++ r.1, acc.2 ++ r.2)) acc files).1) as H.
  { induction files as [|[p d] files IH]; intros acc Hacc; simpl; [done|].
    apply IH. simpl. apply Forall_app. split; [done|].
    apply scan_file_well_formed. }
  apply H. constructor.
Qed.

Lemma deduplicate_elem_of fs f :
  f ∈ deduplicate_findings fs → f ∈ fs.
Proof.
  rewrite deduplicate_keep_unseen. intros H.
  eapply elem_of_sublist; [done|apply keep_unseen_sublist].
Qed.

Lemma deduplicate_covers fs f :
  f ∈ fs → ∃ g, g ∈ deduplicate_findings fs ∧ key g = key f.
Proof.
  intros Hf. rewrite deduplicate_keep_unseen.
  assert (key f ∈ (key <$> keep_unseen ∅ fs)) as Hk.
  { apply keep_unseen_keys. split; [by apply list_elem_of_fmap_2|].
    apply not_elem_of_empty. }
  apply list_elem_of_fmap in Hk as (g & E & Hg). eauto.
Qed.

(** The post-processing of well-formed findings raises nothing, and its
    result rearranges the deduplicated findings that pass the filter. *)
Lemma process_well_formed fs sev :
  Forall well_formed fs →
  ∃ final,
    process fs (value sev) = Some final
    ∧ final ≡ₚ filter (λ f, severity_rank (severity f) ≤ rank sev)%nat
                 (deduplicate_findings fs).
Proof.
  intros Hwf. unfold process.
  assert (Forall well_formed (deduplicate_findings fs)) as Hd.
  { apply Forall_forall. intros f Hf%deduplicate_elem_of.
    by eapply Forall_forall in Hwf. }
  rewrite filter_by_severity_filter by done. simpl.
  set (kept := filter _ _).
  assert (Forall well_formed kept) as Hk.
  { apply Forall_forall. intros f [_ Hf]%list_elem_of_filter.
    by eapply Forall_forall in Hd. }
  rewrite sort_findings_stable_sort by done.
  eexists. split; [done|]. apply stable_sort_Permutation.
Qed.

Lemma comment_marked_is_comment_line ln :
  comment_marked ln ↔ is_comment_line ln = true.
Proof.
  unfold comment_marked, is_comment_line. simpl.
  rewrite !orb_true_iff. tauto.
Qed.

(** A run always ends with a report and the exit code 0 or 1: the
    findings the scanner makes are well formed, so no lookup of a severity
    raises. *)
Lemma main_exits (at_path : option Node) (args : Args) :
  ∃ out warnings code,
    main at_path args = Exit out warnings code ∧ (code = 0 ∨ code = 1).
Proof.
  unfold main.
  pose proof (scan_all_well_formed (get_files (args_path args) at_path))
    as Hwf.
  destruct (scan_all _) as [all_findings warnings]. simpl in Hwf.
  destruct (process_well_formed all_findings (args_severity args) Hwf)
    as (final & -> & _).
  do 3 eexists. split; [done|]. apply exit_code_cases.
Qed.

(** A run on a small tree: the text file and the dependency directory are
    not scanned, the unreadable file gives a warning, the comment line
    gives nothing. *)
Example main_on_a_small_tree :
  main
    (Some (Dir [ ("src",
                  Dir [ ("store.py",
                         File (inl ("db.save(ssn)" +:+ newline
                                    +:+ "print(emails)" +:+ newline
                                    +:+ "# password" +:+ newline)));
                        ("notes.txt", File (inl "password")) ]);
                 ("node_modules", Dir [ ("z.js", File (inl "password")) ]);
                 ("locked.js", File (inr "Permission denied")) ]))
    {| args_path := ["proj"]; args_output := text; args_severity := LOW |}
  = Exit
      (TextOut
         (join newline
            [ "============================================================";
              "Privacy Scan Results";
              "============================================================";
              "";
              "Summary:";
              "  CRITICAL: 2";
              "  HIGH: 1";
              "";
              "📄 proj/src/store.py";
              "  🔴 Line 1: Potential SSN field detected";
              "     db.save(ssn)";
              "     → Ensure SSN data is encrypted and access is logged";
              "  🔴 Line 1: Potential unencrypted PII storage";
              "     db.save(ssn)";
              "     → Encrypt sensitive data before storage";
              "  🟠 Line 2: Potential PII being logged";
              "     print(emails)";
              "     → Remove PII from log statements or use masking";
              "";
              "❌ PRIVACY SCAN FAILED - Critical/High issues found" ]))
      ["Warning: Could not read proj/locked.js: Permission denied"] 1.
Proof. vm_compute. reflexivity. Qed.

(** C7. A line whose whitespace-trimmed form starts with [//], [#] or [*]
    contributes no finding, whatever it holds; hence a file all of whose
    lines are such comment lines (empty lines apart) yields no findings
    and no diagnostics. *)
Theorem C7_comment_lines_yield_nothing :
  (∀ file_path n ln,
     comment_marked ln → scan_line file_path n ln = [])
  ∧ (∀ file_str content,
       Forall (λ ln, comment_marked ln ∨ ln = "") (split_lines content) →
       scan_file file_str (inl content) = ([], [])).
Proof.
  split.
  - intros file_path n ln H. by apply scan_line_comment,
      comment_marked_is_comment_line.
  - intros file_str content H. simpl. f_equal.
    generalize 1. induction H as [|ln lns Hln _ IH]; intros start; simpl.
    + done.
    + rewrite IH, app_nil_r. destruct Hln as [Hln| ->].
      * by apply scan_line_comment, comment_marked_is_comment_line.
      * reflexivity.
Qed.

Lemma C7_comment_lines_yield_nothing_witness :
  scan_line "app.py" 4 "   # password = ssn" = []
  ∧ scan_file "src/app.js"
      (inl ("// const password = req.body.password;" +:+ newline
            +:+ "   # print(email)" +:+ newline
            +:+ " * db.save(ssn)" +:+ newline))
    = ([], []).
Proof.
  split.
  - apply (proj1 C7_comment_lines_yield_nothing). right; left. reflexivity.
  - apply (proj2 C7_comment_lines_yield_nothing).
    repeat apply Forall_cons_2; [| | | |apply Forall_nil_2].
    + left. left. reflexivity.
    + left. right; left. reflexivity.
    + left. right; right. reflexivity.
    + right. reflexivity.
Defined.




Lemma store_write_fires_on_save_ssn :
  re_search store_write_pattern (lower "db.save(ssn)") = true.
Proof. reflexivity. Qed.

(** C3. Take a file the selector accepts (allow-listed extension, no
    denied directory in its path) whose text has the line [db.save(ssn)].
    Scanning it yields, for that line, an [unencrypted_pii] finding of
    severity [critical]; the finding is in the final list of a run on that
    file alone, whatever the output format and the threshold, and the run
    exits with code 1. *)
Theorem C3_unencrypted_store_fails_the_run
    (content : string) (i : nat) (args : Args) :
  should_scan_file (args_path args) = true →
  split_lines content !! i = Some "db.save(ssn)" →
  let file_str := path_str (args_path args) in
  let f := unencrypted_finding file_str (1 + Z.of_nat i) "db.save(ssn)" in
  category f = "unencrypted_pii" ∧ severity f = "critical"
  ∧ f ∈ (scan_file file_str (inl content)).1
  ∧ ∃ final,
      process (scan_file file_str (inl content)).1
        (value (args_severity args)) = Some final
      ∧ f ∈ final
      ∧ main (Some (File (inl content))) args
        = Exit (match args_output args with
                | text => TextOut (format_text_report final)
                | json => JsonOut (format_json_report final)
                end) [] 1.
Proof.
  intros Hscan Hline file_str f.
  set (all := (scan_file file_str (inl content)).1).
  assert (f ∈ all) as Hall.
  { apply elem_of_scan_lines. exists i, "db.save(ssn)". split; [done|].
    apply (scan_line_unencrypted _ _ _ store_write_pattern);
      [done|right; left|apply store_write_fires_on_save_ssn]. }
  destruct (process_well_formed all (args_severity args))
    as (final & Hfinal & Hperm); [apply scan_file_well_formed|].
  assert (f ∈ deduplicate_findings all) as Hdedup.
  { destruct (deduplicate_covers all f Hall) as (g & Hg & Hkey).
    pose proof (deduplicate_elem_of _ _ Hg) as Hg'.
    apply elem_of_scan_lines in Hg' as (j & l & Hj & Hgl).
    destruct (scan_line_shape _ _ _ _ Hgl) as (_ & Hnum & _ & Hcat).
    unfold key in Hkey. simplify_eq/=.
    assert (j = i) as -> by lia. simplify_eq.
    rewrite (Hcat ltac:(done)) in Hg. exact Hg. }
  assert (f ∈ final) as Hf.
  { rewrite Hperm. apply list_elem_of_filter. split; [|done].
    change (severity_rank (severity f)) with O. lia. }
  split_and!; try done.
  exists final. split_and!; try done.
  unfold main, get_files. rewrite Hscan.
  unfold scan_all. cbn [foldl scan_file fst snd app].
  fold file_str. change (scan_lines file_str 1 (split_lines content)) with all.
  rewrite Hfinal.
  assert (exit_code final = 1) as ->; [|done].
  destruct (exit_code_cases final) as [H0|H1]; [|done].
  apply exit_code_spec in H0. by destruct (H0 f Hf).
Qed.

Lemma C3_unencrypted_store_fails_the_run_witness :
  ∃ out,
    main (Some (File (inl ("import db" +:+ newline +:+ "db.save(ssn)"))))
      {| args_path := ["src"; "store.py"]; args_output := text;
         args_severity := HIGH |}
    = Exit out [] 1.
Proof.
  destruct (C3_unencrypted_store_fails_the_run
              ("import db" +:+ newline +:+ "db.save(ssn)") 1
              {| args_path := ["src"; "store.py"]; args_output := text;
                 args_severity := HIGH |})
    as (_ & _ & _ & final & _ & _ & Hmain); [reflexivity..|].
  eexists. exact Hmain.
Defined.

(** ** Building matches *)

Section Runs.
Implicit Types (b u v : list ascii) (t : string).

Lemma re_search_intro r pre rest z' :
  den r (reverse (chars pre), chars rest) z' →
  re_search r (pre +:+ rest) = true.
Proof.
  intros H. apply search_from_spec.
  exists (chars pre), (chars rest), z'.
  by rewrite chars_app, app_nil_r.
Qed.

Lemma den_chr_run c b v : den (chr c) (b, c :: v) (c :: b, v).
Proof. apply den_chr, (covers_run b [c] v). Qed.

Lemma den_lit_run t b v :
  den (lit t) (b, chars t ++ v) (reverse (chars t) ++ b, v).
Proof. apply den_lit, covers_run. Qed.

Lemma den_words_run ts t b v :
  t ∈ ts → den (words ts) (b, chars t ++ v) (reverse (chars t) ++ b, v).
Proof. intros Ht. apply den_words. exists t. split; [done|apply covers_run]. Qed.

Lemma den_star_run p u b v :
  forallb p u = true → den (Star (Chr p)) (b, u ++ v) (reverse u ++ b, v).
Proof. intros Hu. apply den_star_class. exists u. split; [done|apply covers_run]. Qed.

Lemma den_plus_run p u b v :
  u ≠ [] → forallb p u = true →
  den (plus (Chr p)) (b, u ++ v) (reverse u ++ b, v).
Proof.
  intros Hne Hu. destruct u as [|c u]; [done|].
  simpl in Hu. apply andb_true_iff in Hu as [Hc Hu].
  exists (c :: b, u ++ v). split.
  - by exists c, (u ++ v).
  - rewrite reverse_cons, <-(assoc_L (++)). by apply (den_star_run p u).
Qed.

Lemma den_cat_run r rs z m z' :
  den r z m → den (cat rs) m z' → den (cat (r :: rs)) z z'.
Proof. intros. apply den_cat_cons. by exists m. Qed.

Lemma den_cat_last r z z' : den r z z' → den (cat [r]) z z'.
Proof. done. Qed.

Lemma forallb_pointwise {A} (p q : A → bool) (l : list A) :
  (∀ x, p x = q x) → forallb p l = forallb q l.
Proof. intros E. induction l as [|x l IH]; simpl; [done|]. by rewrite E, IH. Qed.

End Runs.

(** ** Log rules *)

Example log_calls_listed :
  log_calls
  = [ "console.log"; "console.info"; "console.warn"; "console.error";
      "console.debug";
      "logger.log"; "logger.info"; "logger.warn"; "logger.error";
      "logger.debug";
      "log.info"; "log.warn"; "log.error"; "log.debug";
      "print"; "println"; "printf";
      "logging.info"; "logging.warn"; "logging.error"; "logging.debug" ].
Proof. reflexivity. Qed.

Lemma den_prefixed_run prefix ts t b v :
  t ∈ ts →
  den (cat [lit prefix; words ts]) (b, chars (prefix +:+ t) ++ v)
    (reverse (chars (prefix +:+ t)) ++ b, v).
Proof.
  intros Ht. rewrite chars_app, reverse_app, <-!(assoc_L (++)).
  eapply den_cat_run; [apply den_lit_run|]. by apply den_words_run.
Qed.

Lemma log_call_pattern call :
  call ∈ log_calls →
  ∃ callee,
    log_pattern callee ∈ LOG_PATTERNS
    ∧ ∀ b v, den callee (b, chars call ++ v) (reverse (chars call) ++ b, v).
Proof.
  unfold log_calls. rewrite !elem_of_app, !list_elem_of_fmap.
  intros [(t & -> & Ht)|[(t & -> & Ht)|[(t & -> & Ht)|[Ht|(t & -> & Ht)]]]].
  - eexists. split; [left|]. intros. by apply den_prefixed_run.
  - eexists. split; [right; left|]. intros. by apply den_prefixed_run.
  - eexists. split; [do 2 right; left|]. intros. by apply den_prefixed_run.
  - eexists. split; [do 3 right; left|]. intros. by apply den_words_run.
  - eexists. split; [do 4 right; left|]. intros. by apply den_prefixed_run.
Qed.

Lemma log_tokens_start_with_word tok :
  tok ∈ log_tokens → first_is_word tok = true.
Proof.
  unfold log_tokens. rewrite !elem_of_cons, elem_of_nil.
  intros [->|[->|[->|[->|[->|[->|[]]]]]]]; reflexivity.
Qed.

(** A log rule fires on a known call whose text between the opening
    parenthesis and a log token has no closing parenthesis and does not
    end in a word character, whatever follows the token. *)
Lemma log_pattern_fires callee call pre ws args tok rest :
  (∀ b v, den callee (b, chars call ++ v) (reverse (chars call) ++ b, v)) →
  all_chars is_space ws = true →
  all_chars (is_not ")") args = true →
  last_is_word args = false →
  tok ∈ log_tokens →
  re_search (log_pattern callee)
    (pre +:+ call +:+ ws +:+ "(" +:+ args +:+ tok +:+ rest) = true.
Proof.
  intros Hcallee Hws Hargs Hlast Htok.
  eapply re_search_intro. rewrite !chars_app. unfold log_pattern.
  eapply den_cat_run; [apply Hcallee|].
  eapply den_cat_run; [by apply den_star_run|].
  eapply den_cat_run; [apply den_chr_run|].
  eapply den_cat_run.
  { apply den_star_run. unfold all_chars in Hargs.
    erewrite forallb_pointwise; [exact Hargs|].
    intros c. unfold is_not. simpl. by rewrite orb_false_r. }
  eapply den_cat_run.
  { split; [|done]. unfold at_boundary.
    rewrite word_after_token by by apply log_tokens_start_with_word.
    unfold word_before, last_is_word in *. simpl.
    destruct (reverse (chars args)); simpl; [done|by rewrite Hlast]. }
  apply den_cat_last. by apply den_words_run.
Qed.

(** ** The Credential field rule *)

Lemma credential_rule_listed :
  (field_pattern credential_tokens, "Credential", CRITICAL)
  ∈ PII_FIELD_PATTERNS.
Proof. do 2 right; left. Qed.

Lemma credential_rule_unique pattern pii_type sev :
  (pattern, pii_type, sev) ∈ PII_FIELD_PATTERNS →
  "Potential " +:+ pii_type +:+ " field detected"
  = "Potential Credential field detected" →
  pattern = field_pattern credential_tokens.
Proof.
  unfold PII_FIELD_PATTERNS. intros Hin Hdesc.
  repeat (apply elem_of_cons in Hin as [Hin|Hin];
          [injection Hin as -> -> ->;
           first [reflexivity|by vm_compute in Hdesc]|]).
  by apply elem_of_nil in Hin.
Qed.

Lemma credential_finding_iff file_path n ln :
  is_comment_line ln = false →
  (∃ f, f ∈ scan_line file_path n ln ∧ is_credential_finding f) ↔
  whole_token credential_tokens (lower ln).
Proof.
  intros Hcomment. rewrite <-field_pattern_spec by reflexivity. split.
  - intros (f & Hf & Hcat & Hdesc).
    apply elem_of_scan_line in Hf
      as [_ [(pattern & pii_type & sev & Hin & Hs & ->)
            |[(? & _ & _ & ->)|(? & _ & _ & ->)]]]; [|done..].
    by rewrite <-(credential_rule_unique _ _ _ Hin Hdesc).
  - intros Hs. exists (field_finding file_path n ln "Credential" CRITICAL).
    split; [|done].
    by eapply scan_line_field; [|apply credential_rule_listed|].
Qed.

Lemma field_rules_whole_tokens pattern pii_type sev :
  (pattern, pii_type, sev) ∈ PII_FIELD_PATTERNS →
  ∃ tokens,
    pattern = field_pattern tokens
    ∧ ∀ text, re_search pattern text = true ↔ whole_token tokens text.
Proof.
  unfold PII_FIELD_PATTERNS. intros Hin.
  repeat (apply elem_of_cons in Hin as [Hin|Hin];
          [injection Hin as -> -> ->; eexists; split; [reflexivity|];
           intros text; by apply field_pattern_spec|]).
  by apply elem_of_nil in Hin.
Qed.

(** C8. Every field rule finds its pattern exactly in the texts that hold
    one of its tokens with no word character directly before or after it.
    The Credential rule hence fires on a line that is not a comment exactly
    when the case-folded line holds one of its tokens so.  So [password] delimited by
    characters that are not word characters, as in [req.body.password] and
    [user-password], yields the Credential [pii_field] finding of severity
    [critical], and a line that has the token only inside [passwordReset]
    yields no finding. *)
Theorem C8_field_rules_fire_on_whole_tokens :
  (∀ pattern pii_type sev,
     (pattern, pii_type, sev) ∈ PII_FIELD_PATTERNS →
     ∃ tokens,
       pattern = field_pattern tokens
       ∧ ∀ text, re_search pattern text = true ↔ whole_token tokens text)
  ∧ (∀ file_path n ln,
     is_comment_line ln = false →
     ((∃ f, f ∈ scan_line file_path n ln ∧ is_credential_finding f) ↔
      whole_token credential_tokens (lower ln)))
  ∧ (∀ file_path n ln pre post,
       is_comment_line ln = false →
       lower ln = pre +:+ "password" +:+ post →
       last_is_word pre = false → first_is_word post = false →
       let f := field_finding file_path n ln "Credential" CRITICAL in
       f ∈ scan_line file_path n ln ∧ is_credential_finding f
       ∧ severity f = "critical")
  ∧ (∀ file_path n,
       scan_line file_path n "passwordReset" = []
       ∧ scan_line file_path n "  url = passwordReset(user_id);" = []
       ∧ scan_line file_path n "req.body.password"
         = [field_finding file_path n "req.body.password" "Credential"
              CRITICAL]
       ∧ scan_line file_path n "user-password"
         = [field_finding file_path n "user-password" "Credential"
              CRITICAL]).
Proof.
  split_and!.
  - apply field_rules_whole_tokens.
  - apply credential_finding_iff.
  - intros file_path n ln pre post Hcomment Hln Hpre Hpost f.
    split_and!; try done.
    eapply scan_line_field; [done|apply credential_rule_listed|].
    apply field_pattern_spec; [reflexivity|].
    exists pre, "password", post. split_and!; try done. left.
  - intros file_path n. split_and!; reflexivity.
Qed.

Lemma C8_field_rules_fire_on_whole_tokens_witness :
  field_finding "api.js" 3 "const pw = Req.Body.PASSWORD;" "Credential"
    CRITICAL
  ∈ scan_line "api.js" 3 "const pw = Req.Body.PASSWORD;".
Proof.
  refine (proj1 (proj1 (proj2 (proj2 C8_field_rules_fire_on_whole_tokens))
                   "api.js" 3 "const pw = Req.Body.PASSWORD;"
                   "const pw = req.body." ";" _ _ _ _)); reflexivity.
Defined.

(** ** The datastore-write rule *)

Lemma prefix_app needle v : String.prefix needle (needle +:+ v) = true.
Proof.
  induction needle as [|c t IH]; [by destruct v|].
  change (String c t +:+ v) with (String c (t +:+ v)). simpl.
  by destruct (ascii_dec c c).
Qed.

Lemma occurs_in_find_in needle hay :
  occurs_in needle hay → find_in needle hay = true.
Proof.
  intros (u & v & ->). induction u as [|c u IH].
  - change ("" +:+ needle +:+ v) with (needle +:+ v).
    assert (∀ hay, String.prefix needle hay = true → find_in needle hay = true)
      as Hp by (by intros [|??] H; cbn [find_in]; rewrite H).
    apply Hp, prefix_app.
  - change (String c u +:+ needle +:+ v) with (String c (u +:+ needle +:+ v)).
    cbn [find_in]. rewrite IH. apply orb_true_r.
Qed.

Lemma store_tokens_ok tok : tok ∈ store_tokens → token_ok tok = true.
Proof.
  unfold store_tokens. rewrite !elem_of_cons, elem_of_nil.
  intros [->|[->|[->|[]]]]; reflexivity.
Qed.

Lemma not_close_paren (l : list ascii) :
  forallb (is_not ")") l
  = forallb (λ c, negb (existsb (Ascii.eqb c) [")"%char])) l.
Proof.
  apply forallb_pointwise. intros c. unfold is_not. simpl.
  by rewrite orb_false_r.
Qed.

(** The call part of the rule matches a call of this shape. *)
Lemma store_call_run b callee ws1 ws2 method ws3 before tok after v :
  callee ∈ store_callees →
  all_chars is_space ws1 = true → all_chars is_space ws2 = true →
  all_chars is_word method = true → method ≠ "" →
  all_chars is_space ws3 = true →
  all_chars (is_not ")") before = true → last_is_word before = false →
  tok ∈ store_tokens →
  all_chars (is_not ")") after = true → first_is_word after = false →
  den store_call
    (b, chars (callee +:+ ws1 +:+ "." +:+ ws2 +:+ method +:+ ws3 +:+ "("
               +:+ before +:+ tok +:+ after) ++ ")"%char :: v)
    (reverse (chars (callee +:+ ws1 +:+ "." +:+ ws2 +:+ method +:+ ws3
                     +:+ "(" +:+ before +:+ tok +:+ after)) ++ b,
     ")"%char :: v).
Proof.
  intros Hcallee Hws1 Hws2 Hmethod Hne Hws3 Hbefore Hlast Htok Hafter Hfirst.
  apply store_tokens_ok in Htok as Hok.
  apply andb_true_iff in Hok as [Hfw Hlw].
  unfold all_chars in *. rewrite not_close_paren in Hbefore, Hafter.
  rewrite !chars_app, !reverse_app, <-!(assoc_L (++)).
  unfold store_call.
  eapply den_cat_run; [by apply den_words_run|].
  eapply den_cat_run; [by apply den_star_run|].
  eapply den_cat_run; [apply den_chr_run|].
  eapply den_cat_run; [by apply den_star_run|].
  eapply den_cat_run.
  { apply den_plus_run; [|done]. by destruct method. }
  eapply den_cat_run; [by apply den_star_run|].
  eapply den_cat_run; [apply den_chr_run|].
  eapply den_cat_run; [by apply den_star_run|].
  eapply den_cat_run.
  { split; [|done]. unfold at_boundary.
    rewrite word_after_token by done.
    unfold word_before, last_is_word in *. simpl.
    destruct (reverse (chars before)); simpl; [done|by rewrite Hlast]. }
  eapply den_cat_run; [by apply den_words_run|].
  eapply den_cat_run.
  { split; [|done]. unfold at_boundary.
    rewrite word_before_token by done.
    unfold word_after, first_is_word in *. simpl.
    destruct (chars after); simpl; [done|by rewrite Hfirst]. }
  apply den_cat_last. by apply den_star_run.
Qed.

Lemma encrypt_ahead_occurs b v m :
  den encrypt_ahead (b, v) m → occurs_in "encrypt" (of_chars v).
Proof.
  unfold encrypt_ahead. rewrite den_cat_cons.
  intros (m1 & H1 & H2). apply den_star_class in H1 as (u & _ & Hu).
  apply den_lit in H2. apply covers_inv in Hu as [-> ->].
  apply covers_inv in H2 as [H2 _]. simpl in H2.
  exists (of_chars u), (of_chars m.2).
  by rewrite H2, !of_chars_app.
Qed.

(** The rule fires on such a call when [encrypt] does not occur after the
    closing parenthesis, wherever else it occurs. *)
Lemma store_write_fires pre callee ws1 ws2 method ws3 before tok after rest :
  callee ∈ store_callees →
  all_chars is_space ws1 = true → all_chars is_space ws2 = true →
  all_chars is_word method = true → method ≠ "" →
  all_chars is_space ws3 = true →
  all_chars (is_not ")") before = true → last_is_word before = false →
  tok ∈ store_tokens →
  all_chars (is_not ")") after = true → first_is_word after = false →
  ¬ occurs_in "encrypt" rest →
  re_search store_write_pattern
    (pre +:+ (callee +:+ ws1 +:+ "." +:+ ws2 +:+ method +:+ ws3 +:+ "("
              +:+ before +:+ tok +:+ after) +:+ ")" +:+ rest) = true.
Proof.
  intros ? ? ? ? ? ? ? ? ? ? ? Hrest.
  eapply re_search_intro. rewrite (chars_app _ (_ +:+ rest)).
  unfold store_write_pattern.
  eapply den_cat_run; [by apply store_call_run|].
  eapply den_cat_run; [apply den_chr_run|].
  eapply den_cat_run; [apply (den_star_run _ []); done|].
  apply den_cat_last. split; [done|].
  intros (m & Hm%encrypt_ahead_occurs). apply Hrest.
  by rewrite String.string_of_list_ascii_of_string in Hm.
Qed.

Lemma split_at_char {A} (c : A) (L R X Y : list A) :
  L ++ c :: R = X ++ Y → c ∉ Y → ∃ X', X = L ++ c :: X' ∧ R = X' ++ Y.
Proof.
  revert X. induction L as [|l L IH]; intros [|x X] E Hc; simplify_eq/=.
  - destruct Hc. left.
  - by exists X.
  - destruct Hc. right. apply elem_of_app. right. left.
  - destruct (IH X) as (X' & -> & ->); [done..|]. by exists X'.
Qed.

Lemma split_after_run {A} (p : A → bool) (sp M X : list A) e R :
  forallb p sp = true → p e = false → sp ++ M = X ++ e :: R →
  ∃ X', X = sp ++ X' ∧ M = X' ++ e :: R.
Proof.
  intros Hsp He. revert X. induction sp as [|s sp IH]; intros X E.
  - by exists X.
  - simpl in Hsp. apply andb_true_iff in Hsp as [Hs Hsp].
    destruct X as [|x X]; simplify_eq/=; [congruence|].
    destruct (IH Hsp X) as (X' & -> & ->); [done|]. by exists X'.
Qed.

Lemma forallb_elem_of {A} (p : A → bool) (l : list A) x :
  forallb p l = true → x ∈ l → p x = true.
Proof.
  rewrite forallb_forall. intros H Hx. by apply H, list_elem_of_In.
Qed.

(** The rule does not fire when [encrypt] occurs after the last closing
    parenthesis of a text without line breaks. *)
Lemma store_write_suppressed text a b :
  text = a +:+ "encrypt" +:+ b →
  all_chars (is_not ")") b = true →
  all_chars (is_not "010") text = true →
  re_search store_write_pattern text = false.
Proof.
  intros -> Hb Hnl. apply not_true_iff_false. intros Hs.
  apply search_from_spec in Hs as (u & v & z' & E & Hden).
  unfold store_write_pattern in Hden.
  apply den_cat_cons in Hden as (m1 & H1 & Hden).
  apply den_cat_cons in Hden as (m2 & H2 & Hden).
  apply den_cat_cons in Hden as (m3 & H3 & -> & Hno).
  apply den_advance in H1 as (x & E1 & _).
  apply den_chr in H2 as [E2 _].
  apply den_star_class in H3 as (sp & Hsp & [E3 _]).
  simpl in E1, E2, E3. rewrite E2, E3 in E1. subst v. clear E2 E3.
  unfold all_chars in *. rewrite !chars_app in E, Hnl.
  rewrite (assoc_L (++) u x) in E. symmetry in E.
  apply split_at_char in E as (X' & Ea & E).
  2:{ intros [Hin|Hin]%elem_of_app.
      - by vm_compute in Hin; repeat
          (apply elem_of_cons in Hin as [Hin|Hin]; [done|]);
          apply elem_of_nil in Hin.
      - by pose proof (forallb_elem_of _ _ _ Hb Hin). }
  apply (split_after_run is_space) in E as (X'' & -> & E); [|done..].
  apply Hno. exists (reverse (chars "encrypt") ++ reverse X'' ++ m3.1, chars b).
  unfold encrypt_ahead. apply den_cat_cons.
  exists (reverse X'' ++ m3.1, chars "encrypt" ++ chars b). split.
  - destruct m3 as [b3 v3]. simpl in E. subst v3.
    apply den_star_run.
    rewrite Ea, !forallb_app in Hnl. simpl in Hnl.
    rewrite !andb_true_iff in Hnl.
    destruct Hnl as [[_ Hnl] _]. rewrite forallb_app in Hnl.
    apply andb_true_iff in Hnl as [_ Hnl].
    erewrite forallb_pointwise; [exact Hnl|]. intros c. by unfold is_not.
  - apply den_lit_run.
Qed.

Lemma lower_char_line_break c :
  is_not "010" (lower_char c) = is_not "010" c.
Proof. by destruct c as [[] [] [] [] [] [] [] []]. Qed.

Lemma lower_line_breaks t :
  all_chars (is_not "010") (lower t) = all_chars (is_not "010") t.
Proof.
  unfold all_chars, lower. induction t as [|c t IH]; [done|].
  cbn [map_chars String.list_ascii_of_string forallb].
  by rewrite lower_char_line_break, IH.
Qed.

(** The lines of a file hold no line break. *)
Lemma split_lines_no_line_break content ln :
  ln ∈ split_lines content → all_chars (is_not "010") ln = true.
Proof.
  revert ln. induction content as [|c t IH]; intros ln; simpl.
  - by intros ->%list_elem_of_singleton.
  - destruct (Ascii.eqb c "010") eqn:Hc.
    + intros [->|Hin]%elem_of_cons; [done|by apply IH].
    + pose proof (split_lines_nonempty t) as Hne.
      destruct (split_lines t) as [|l ls]; [done|].
      intros [->|Hin]%elem_of_cons.
      * unfold all_chars, is_not. simpl. rewrite Hc. simpl.
        apply IH. left.
      * apply IH. by right.
Qed.

(** C9. For the datastore-write rule the text [encrypt] counts only after
    the closing parenthesis of the matched call.  On a line that is not a
    comment and whose case-folded text has a call of the rule's shape (one
    of the callees, a dot, a method name, and in parentheses a whole token
    of the rule among text without a closing parenthesis) the scanner emits
    the [unencrypted_pii] finding as soon as [encrypt] does not occur after
    the closing parenthesis: occurrences before the call or inside its
    arguments, as in [db.save(encrypt(ssn))], do not prevent it.  When
    [encrypt] occurs after the last closing parenthesis of a line the rule
    does not fire. *)
Theorem C9_encrypt_counts_only_after_the_call :
  (∀ file_path n ln pre callee ws1 ws2 method ws3 before tok after rest,
     is_comment_line ln = false →
     lower ln
     = pre +:+ (callee +:+ ws1 +:+ "." +:+ ws2 +:+ method +:+ ws3 +:+ "("
                +:+ before +:+ tok +:+ after) +:+ ")" +:+ rest →
     callee ∈ store_callees →
     all_chars is_space ws1 = true → all_chars is_space ws2 = true →
     all_chars is_word method = true → method ≠ "" →
     all_chars is_space ws3 = true →
     all_chars (is_not ")") before = true → last_is_word before = false →
     tok ∈ store_tokens →
     all_chars (is_not ")") after = true → first_is_word after = false →
     ¬ occurs_in "encrypt" rest →
     unencrypted_finding file_path n ln ∈ scan_line file_path n ln)
  ∧ (∀ ln a b,
       lower ln = a +:+ "encrypt" +:+ b →
       all_chars (is_not ")") b = true →
       all_chars (is_not "010") ln = true →
       re_search store_write_pattern (lower ln) = false)
  ∧ (∀ file_path n,
       scan_line file_path n "db.save(encrypt(ssn))"
       = [ field_finding file_path n "db.save(encrypt(ssn))" "SSN" CRITICAL;
           unencrypted_finding file_path n "db.save(encrypt(ssn))" ]
       ∧ scan_line file_path n "key = encrypt(k); db.save(ssn)"
         = [ field_finding file_path n "key = encrypt(k); db.save(ssn)"
               "SSN" CRITICAL;
             unencrypted_finding file_path n
               "key = encrypt(k); db.save(ssn)" ]
       ∧ scan_line file_path n "db.save(ssn)  # encrypt later"
         = [ field_finding file_path n "db.save(ssn)  # encrypt later"
               "SSN" CRITICAL ]).
Proof.
  split_and!.
  - intros file_path n ln pre callee ws1 ws2 method ws3 before tok after rest
      Hcomment Hln. intros.
    apply (scan_line_unencrypted _ _ _ store_write_pattern);
      [done|right; left|].
    rewrite Hln. by apply store_write_fires.
  - intros ln a b Hln Hb Hnl.
    apply (store_write_suppressed _ a b); [done..|].
    by rewrite lower_line_breaks.
  - intros file_path n. split_and!; reflexivity.
Qed.

Lemma C9_encrypt_counts_only_after_the_call_witness :
  unencrypted_finding "dao.py" 8 "  Store.put (encrypt_key, Password)  # todo"
  ∈ scan_line "dao.py" 8 "  Store.put (encrypt_key, Password)  # todo".
Proof.
  refine (proj1 C9_encrypt_counts_only_after_the_call
            "dao.py" 8 "  Store.put (encrypt_key, Password)  # todo"
            "  " "store" "" "" "put" " " "encrypt_key, " "password" ""
            "  # todo" _ _ _ _ _ _ _ _ _ _ _ _ _ _); try reflexivity.
  - do 2 right; left.
  - done.
  - right; left.
  - intros H%occurs_in_find_in. vm_compute in H. discriminate H.
Defined.

(** ** Log rules against field rules *)

Lemma covers_trans (z m z' : pos) (u v : list ascii) :
  covers z u m → covers m v z' → covers z (u ++ v) z'.
Proof.
  unfold covers. intros [E1 F1] [E2 F2].
  rewrite E1, E2, F2, F1, reverse_app. by rewrite !(assoc_L (++)).
Qed.

Lemma den_prefixed_inv prefix ts z m :
  den (cat [lit prefix; words ts]) z m →
  ∃ t, t ∈ ts ∧ covers z (chars (prefix +:+ t)) m.
Proof.
  rewrite den_cat_cons. intros (m1 & H1%den_lit & H2).
  apply den_words in H2 as (t & Ht & H2).
  exists t. split; [done|]. rewrite chars_app. by eapply covers_trans.
Qed.

Lemma log_pattern_callee pattern :
  pattern ∈ LOG_PATTERNS →
  ∃ callee,
    pattern = log_pattern callee
    ∧ ∀ z m, den callee z m →
             ∃ call, call ∈ log_calls ∧ covers z (chars call) m.
Proof.
  unfold LOG_PATTERNS, log_calls. rewrite !elem_of_cons, elem_of_nil.
  intros [->|[->|[->|[->|[->|[]]]]]]; eexists; (split; [reflexivity|]);
    intros z m Hden.
  - apply den_prefixed_inv in Hden as (t & Ht & Hc).
    exists ("console." +:+ t). split; [|done].
    rewrite !elem_of_app. left. by apply list_elem_of_fmap_2.
  - apply den_prefixed_inv in Hden as (t & Ht & Hc).
    exists ("logger." +:+ t). split; [|done].
    rewrite !elem_of_app. right; left. by apply list_elem_of_fmap_2.
  - apply den_prefixed_inv in Hden as (t & Ht & Hc).
    exists ("log." +:+ t). split; [|done].
    rewrite !elem_of_app. do 2 right; left. by apply list_elem_of_fmap_2.
  - apply den_words in Hden as (t & Ht & Hc).
    exists t. split; [|done].
    rewrite !elem_of_app. do 3 right; left. done.
  - apply den_prefixed_inv in Hden as (t & Ht & Hc).
    exists ("logging." +:+ t). split; [|done].
    rewrite !elem_of_app. do 4 right. by apply list_elem_of_fmap_2.
Qed.

Lemma log_pattern_inv callee text :
  (∀ z m, den callee z m →
          ∃ call, call ∈ log_calls ∧ covers z (chars call) m) →
  re_search (log_pattern callee) text = true →
  ∃ pre call ws args tok rest,
    text = pre +:+ call +:+ ws +:+ "(" +:+ args +:+ tok +:+ rest
    ∧ call ∈ log_calls
    ∧ all_chars is_space ws = true
    ∧ all_chars (is_not ")") args = true
    ∧ last_is_word args = false
    ∧ tok ∈ log_tokens.
Proof.
  intros Hcallee Hs.
  apply search_from_spec in Hs as (u & v & z' & E & Hden).
  unfold log_pattern in Hden.
  apply den_cat_cons in Hden as (m1 & H1 & Hden).
  apply den_cat_cons in Hden as (m2 & H2 & Hden).
  apply den_cat_cons in Hden as (m3 & H3 & Hden).
  apply den_cat_cons in Hden as (m4 & H4 & Hden).
  apply den_cat_cons in Hden as (m5 & [Hb ->] & H6).
  apply Hcallee in H1 as (call & Hcall & [E1 F1]).
  apply den_star_class in H2 as (ws & Hws & [E2 F2]).
  apply den_chr in H3 as [E3 F3].
  apply den_star_class in H4 as (args & Hargs & [E4 F4]).
  change (den (words log_tokens) m4 z') in H6.
  apply den_words in H6 as (tok & Htok & [E6 F6]).
  simpl in E1, E2, E3, E4, E6.
  exists (of_chars u), call, (of_chars ws), (of_chars args), tok,
    (of_chars z'.2).
  unfold all_chars, last_is_word. rewrite !chars_of_chars.
  split_and!; try done.
  - apply chars_inj. rewrite !chars_app, !chars_of_chars.
    rewrite E, E1, E2, E3, E4, E6. done.
  - by rewrite not_close_paren.
  - unfold at_boundary in Hb.
    assert (word_after m4 = true) as Ha.
    { destruct m4 as [b4 v4]. simpl in E6. subst v4.
      by apply word_after_token, log_tokens_start_with_word. }
    rewrite Ha in Hb. unfold word_before in Hb. rewrite F4, F3 in Hb.
    destruct (reverse args) as [|c r]; [done|]. simpl in Hb.
    by destruct (is_word c).
Qed.

(** The catalogue has one field rule for each description. *)
Lemma field_rule_by_description p1 t1 s1 p2 t2 s2 :
  (p1, t1, s1) ∈ PII_FIELD_PATTERNS →
  (p2, t2, s2) ∈ PII_FIELD_PATTERNS →
  "Potential " +:+ t1 +:+ " field detected"
  = "Potential " +:+ t2 +:+ " field detected" →
  p1 = p2.
Proof.
  unfold PII_FIELD_PATTERNS. intros H1 H2 Hdesc.
  repeat (apply elem_of_cons in H1 as [H1|H1];
          [injection H1 as -> -> ->;
           repeat (apply elem_of_cons in H2 as [H2|H2];
                   [injection H2 as -> -> ->;
                    first [reflexivity|by vm_compute in Hdesc]|]);
           by apply elem_of_nil in H2|]).
  by apply elem_of_nil in H1.
Qed.

(** A field rule gives its finding on a line that is not a comment exactly
    when the case-folded line holds one of its tokens as a whole token. *)
Lemma field_finding_iff file_path n ln pattern pii_type sev :
  is_comment_line ln = false →
  (pattern, pii_type, sev) ∈ PII_FIELD_PATTERNS →
  ∃ tokens,
    pattern = field_pattern tokens
    ∧ (field_finding file_path n ln pii_type sev ∈ scan_line file_path n ln
       ↔ whole_token tokens (lower ln)).
Proof.
  intros Hcomment Hin.
  destruct (field_rules_whole_tokens _ _ _ Hin) as (tokens & -> & Hspec).
  exists tokens. split; [done|]. rewrite <-Hspec. split.
  - intros Hf. apply elem_of_scan_line in Hf
      as [_ [(pattern' & pii' & sev' & Hin' & Hs & E)
            |[(? & _ & _ & [=])|(? & _ & _ & [=])]]].
    assert (description (field_finding file_path n ln pii_type sev)
            = description (field_finding file_path n ln pii' sev')) as Hdesc
      by by rewrite E.
    cbn [description field_finding] in Hdesc.
    by rewrite (field_rule_by_description _ _ _ _ _ _ Hin Hin' Hdesc).
  - intros Hs. by eapply scan_line_field.
Qed.

(** The findings of category [pii_in_logs] of a line are the one log
    finding. *)
Lemma pii_in_logs_finding file_path n ln f :
  f ∈ scan_line file_path n ln →
  category f = "pii_in_logs" ↔ f = log_finding file_path n ln.
Proof.
  intros Hf. apply elem_of_scan_line in Hf
    as [_ [(? & ? & ? & _ & _ & ->)|[(? & _ & _ & ->)|(? & _ & _ & ->)]]];
    split; try done; by intros [=].
Qed.

(** C10. The log rules ask for a word boundary before the sensitive token
    only, and they stop at the first closing parenthesis.  A line gives the
    [pii_in_logs] finding, always of severity [high], exactly when it is
    not a comment line and its case-folded text has, in this order: one of
    the logging or printing call names of the patterns, white space or
    nothing, an opening parenthesis, text without a closing parenthesis
    that does not end in a word character, and a log token.  Nothing is
    asked of what follows the token, so the finding is given when the token
    is the prefix of a longer word, as in [print(emails)] and
    [console.log(emailAddress)]; it is not given when a closing parenthesis
    lies between the opening parenthesis of the call and the token, as in
    [print(f(x), emails)].  A field rule gives its finding on a line that
    is not a comment exactly when one of its tokens stands in the
    case-folded line with no word character directly before or after it:
    the prefix of a longer word does not count for it, so no field rule
    fires on [print(emails)], while on [print(email_address)] the Email
    rule fires through its token [email_address]. *)
Theorem C10_log_rules_need_no_boundary_after :
  (∀ file_path n ln,
     log_finding file_path n ln ∈ scan_line file_path n ln ↔
     is_comment_line ln = false
     ∧ ∃ pre call ws args tok rest,
         lower ln = pre +:+ call +:+ ws +:+ "(" +:+ args +:+ tok +:+ rest
         ∧ call ∈ log_calls
         ∧ all_chars is_space ws = true
         ∧ all_chars (is_not ")") args = true
         ∧ last_is_word args = false
         ∧ tok ∈ log_tokens)
  ∧ (∀ file_path n ln f,
       f ∈ scan_line file_path n ln →
       (category f = "pii_in_logs" ↔ f = log_finding file_path n ln)
       ∧ (category f = "pii_in_logs" → severity f = "high"))
  ∧ (∀ file_path n ln pattern pii_type sev,
       is_comment_line ln = false →
       (pattern, pii_type, sev) ∈ PII_FIELD_PATTERNS →
       ∃ tokens,
         pattern = field_pattern tokens
         ∧ (field_finding file_path n ln pii_type sev
            ∈ scan_line file_path n ln
            ↔ whole_token tokens (lower ln)))
  ∧ (∀ file_path n,
       scan_line file_path n "print(emails)"
       = [log_finding file_path n "print(emails)"]
       ∧ scan_line file_path n "console.log(emailAddress)"
         = [log_finding file_path n "console.log(emailAddress)"]
       ∧ scan_line file_path n "print(email_address)"
         = [field_finding file_path n "print(email_address)" "Email" HIGH;
            log_finding file_path n "print(email_address)"]
       ∧ scan_line file_path n "print(f(x), emails)" = []
       ∧ scan_line file_path n "console.log(getUser(), emailAddress)" = []).
Proof.
  split_and!.
  - intros file_path n ln. split.
    + intros [Hcomment Hf]%elem_of_scan_line. split; [done|].
      destruct Hf as [(? & ? & ? & _ & _ & [=])
                     |[(pattern & Hin & Hs & _)|(? & _ & _ & [=])]].
      apply log_pattern_callee in Hin as (callee & -> & Hcallee).
      by apply (log_pattern_inv callee).
    + intros (Hcomment & pre & call & ws & args & tok & rest & Hln & Hcall
              & Hws & Hargs & Hlast & Htok).
      destruct (log_call_pattern call Hcall) as (callee & Hin & Hden).
      apply (scan_line_log _ _ _ (log_pattern callee)); [done..|].
      rewrite Hln. by apply log_pattern_fires.
  - intros file_path n ln f Hf. split; [by apply pii_in_logs_finding|].
    by intros ->%(pii_in_logs_finding file_path n ln).
  - apply field_finding_iff.
  - intros file_path n. split_and!; reflexivity.
Qed.

Lemma C10_log_rules_need_no_boundary_after_witness :
  log_finding "app.js" 12 "  logger.warn ('bad login', phoneNumber);"
  ∈ scan_line "app.js" 12 "  logger.warn ('bad login', phoneNumber);".
Proof.
  refine (proj2 (proj1 C10_log_rules_need_no_boundary_after
                   "app.js" 12 "  logger.warn ('bad login', phoneNumber);")
            _).
  split; [reflexivity|].
  exists "  ", "logger.warn", " ", "'bad login', ", "phone", "number);".
  split_and!; try reflexivity.
  - unfold log_calls. rewrite !elem_of_app. right; left.
    apply list_elem_of_fmap. exists "warn". split; [done|].
    do 2 right; left.
  - do 1 right; left.
Defined.

(** C10 as stated fails: these lines are not comments and have a printing
    or logging call whose argument text holds [email] as the prefix of a
    longer word, and the scanner gives no finding for them, because a
    closing parenthesis stands between the opening parenthesis of the call
    and the token. *)
Lemma C10_closing_parenthesis_before_the_token :
  is_comment_line "print(f(x), emails)" = false
  ∧ scan_line "app.py" 7 "print(f(x), emails)" = []
  ∧ is_comment_line "console.log(getUser(), emailAddress)" = false
  ∧ scan_line "app.js" 7 "console.log(getUser(), emailAddress)" = [].
Proof. split_and!; reflexivity. Qed.

(** * Further properties *)

(** ** The file selector *)

Lemma Node_nested_ind (P : Node → Prop) :
  (∀ data, P (File data)) → P Special →
  (∀ entries, Forall (λ e, P e.2) entries → P (Dir entries)) →
  ∀ n, P n.
Proof.
  intros Hfile Hspecial Hdir. fix IH 1. intros [data|entries|].
  - apply Hfile.
  - apply Hdir. induction entries as [|[name child] entries IHes].
    + constructor.
    + constructor; [apply IH|apply IHes].
  - apply Hspecial.
Qed.

Lemma walk_Dir p entries :
  walk p (Dir entries)
  = (p, entries) :: (entries ≫= λ '(name, child), walk (p ++ [name]) child).
Proof.
  simpl. f_equal. induction entries as [|[name child] es IH]; [done|].
  csimpl. by rewrite IH.
Qed.

Lemma elem_of_walk p top q es :
  (q, es) ∈ walk p top ↔ ∃ rel, q = p ++ rel ∧ dir_at top rel es.
Proof.
  revert p q es. induction top as [data| |entries IH] using Node_nested_ind;
    intros p q es.
  - simpl. split; [by intros ?%elem_of_nil|]. intros (rel & _ & H). inversion H.
  - simpl. split; [by intros ?%elem_of_nil|]. intros (rel & _ & H). inversion H.
  - rewrite walk_Dir, elem_of_cons, list_elem_of_bind. split.
    + intros [[= -> ->]|([name child] & Hin & Hentry)].
      * exists []. rewrite app_nil_r. split; [done|constructor].
      * eapply Forall_forall in IH; [|done]. simpl in IH.
        apply IH in Hin as (rel & -> & Hrel).
        exists (name :: rel). rewrite <-(assoc_L (++)). split; [done|].
        by econstructor.
    + intros (rel & -> & Hrel). inversion Hrel as [|? name child rel' ? Hentry Hchild]; subst.
      * left. by rewrite app_nil_r.
      * right. exists (name, child). split; [|done].
        eapply Forall_forall in IH; [|done]. simpl in IH.
        apply IH. exists rel'. by rewrite <-(assoc_L (++)).
Qed.

Lemma dir_at_below top rel es name child :
  dir_at top rel es → (name, child) ∈ es → below top (rel ++ [name]) child.
Proof.
  induction 1 as [entries|entries name' child' rel es' Hin _ IH]; intros Hentry.
  - by constructor.
  - simpl. econstructor; [done|]. by apply IH.
Qed.

Lemma below_dir_at top rel n :
  below top rel n →
  ∃ rel' name es, rel = rel' ++ [name] ∧ dir_at top rel' es ∧ (name, n) ∈ es.
Proof.
  induction 1 as [entries name child Hin
                 |entries name child rel n Hin _ (rel' & name' & es & -> & Hd & He)].
  - exists [], name, entries. split_and!; [done|constructor|done].
  - exists (name :: rel'), name', es. split_and!; [done| |done].
    by econstructor.
Qed.

(** [rglob] lists exactly what lies below the root directory. *)
Lemma elem_of_rglob root top p n :
  (p, n) ∈ rglob root (Some top) ↔ ∃ rel, p = root ++ rel ∧ below top rel n.
Proof.
  unfold rglob. rewrite list_elem_of_bind. split.
  - intros ([q es] & Hin & Hwalk). apply list_elem_of_fmap in Hin as ([name child] & [= -> ->] & Hentry).
    apply elem_of_walk in Hwalk as (rel & -> & Hdir).
    exists (rel ++ [name]). rewrite (assoc_L (++)). split; [done|].
    by eapply dir_at_below.
  - intros (rel & -> & Hbelow).
    apply below_dir_at in Hbelow as (rel' & name & es & -> & Hdir & Hentry).
    exists (root ++ rel', es). split.
    + apply list_elem_of_fmap. exists (name, n). by rewrite (assoc_L (++)).
    + apply elem_of_walk. by exists rel'.
Qed.

(** What the selector yields passes [should_scan_file] and lies at or
    under the root path. *)
Lemma get_files_selected (root : Path) (n : option Node) (p : Path)
    (data : FileData) :
  (p, data) ∈ get_files root n →
  should_scan_file p = true ∧ ∃ rel, p = root ++ rel.
Proof.
  destruct n as [[d|entries|]|]; simpl; try by intros ?%elem_of_nil.
  - destruct (should_scan_file root) eqn:Hroot; [|by intros ?%elem_of_nil].
    intros [= -> ->]%list_elem_of_singleton. split; [done|].
    exists []. by rewrite app_nil_r.
  - intros ([q child] & Hin & Hsel)%list_elem_of_omap.
    destruct child as [d| |]; try done.
    destruct (should_scan_file q) eqn:Hq; simplify_eq.
    apply (elem_of_rglob root (Dir entries)) in Hin as (rel & -> & _).
    split; [done|]. by exists rel.
Qed.

(** X1. The file selector yields exactly the regular files that pass
    [should_scan_file]: the root itself when it is a regular file, and
    otherwise every regular file below the root directory, at any depth,
    under the path made of the root and the names that lead to it. *)
Theorem get_files_exact (root : Path) (n : option Node) (p : Path)
    (data : FileData) :
  (p, data) ∈ get_files root n ↔
  should_scan_file p = true
  ∧ ((n = Some (File data) ∧ p = root)
     ∨ (∃ top rel, n = Some top ∧ p = root ++ rel
                   ∧ below top rel (File data))).
Proof.
  destruct n as [[d|entries|]|]; simpl.
  - destruct (should_scan_file root) eqn:Hroot.
    + rewrite list_elem_of_singleton. split.
      * intros [= -> ->]. split; [done|]. by left.
      * intros [_ [[[= ->] ->]|(top & rel & [= <-] & _ & H)]];
          [done|inversion H].
    + split; [by intros ?%elem_of_nil|].
      intros [Hp [[_ ->]|(top & rel & [= <-] & _ & H)]];
        [congruence|inversion H].
  - rewrite list_elem_of_omap. split.
    + intros ([q child] & Hin & Hsel). destruct child as [d| |]; try done.
      destruct (should_scan_file q) eqn:Hq; simplify_eq.
      apply (elem_of_rglob root (Dir entries)) in Hin as (rel & -> & Hb).
      split; [done|]. right. by exists (Dir entries), rel.
    + intros [Hp [[[=] _]|(top & rel & [= <-] & -> & Hb)]].
      exists (root ++ rel, File data). rewrite Hp. split; [|done].
      apply (elem_of_rglob root (Dir entries)). by exists rel.
  - split; [by intros ?%elem_of_nil|].
    intros [_ [[[=] _]|(top & rel & [= <-] & _ & H)]]. inversion H.
  - split; [by intros ?%elem_of_nil|].
    intros [_ [[[=] _]|(top & rel & [=] & _)]].
Qed.





(** ** Scanning files *)

Lemma foldl_scan_all (acc : list Finding * list string)
    (files : list (Path * FileData)) :
  foldl (λ acc '(file_path, data),
           let r := scan_file (path_str file_path) data in
           (acc.1 ++ r.1, acc.2 ++ r.2)) acc files
  = (acc.1 ++ (scan_all files).1, acc.2 ++ (scan_all files).2).
Proof.
  unfold scan_all. revert acc.
  induction files as [|[p d] files IH]; intros acc; simpl.
  - rewrite !app_nil_r. by destruct acc.
  - rewrite (IH (acc.1 ++ _, acc.2 ++ _)).
    rewrite (IH ((scan_file (path_str p) d).1, (scan_file (path_str p) d).2)).
    simpl. by rewrite !(assoc_L (++)).
Qed.

Lemma scan_all_cons p data files :
  scan_all ((p, data) :: files)
  = ((scan_file (path_str p) data).1 ++ (scan_all files).1,
     (scan_file (path_str p) data).2 ++ (scan_all files).2).
Proof. unfold scan_all at 1. simpl. by rewrite foldl_scan_all. Qed.

Lemma scan_all_app files1 files2 :
  scan_all (files1 ++ files2)
  = ((scan_all files1).1 ++ (scan_all files2).1,
     (scan_all files1).2 ++ (scan_all files2).2).
Proof.
  induction files1 as [|[p d] files1 IH];
    [simpl; by destruct (scan_all files2)|].
  simpl. rewrite !scan_all_cons, IH. simpl. by rewrite !(assoc_L (++)).
Qed.

(** X3. A file that cannot be read is skipped and the scan goes on: the
    findings of the run are those of the run without the file, and the
    file adds exactly one warning, in its place among the warnings. *)
Theorem unreadable_file_is_skipped (before after : list (Path * FileData))
    (p : Path) (e : string) :
  (scan_all (before ++ (p, inr e) :: after)).1
  = (scan_all (before ++ after)).1
  ∧ (scan_all (before ++ (p, inr e) :: after)).2
    = (scan_all before).2
      ++ ["Warning: Could not read " +:+ path_str p +:+ ": " +:+ e]
      ++ (scan_all after).2.
Proof. by rewrite !scan_all_app, scan_all_cons. Qed.

Lemma slice_to_length n t : (String.length (slice_to n t) ≤ n)%nat.
Proof.
  revert t. induction n as [|n IH]; intros [|c t]; simpl; try lia.
  specialize (IH t). lia.
Qed.

(** X4. Every finding of a readable file carries the path under which the
    file was scanned and the number of one of its lines, counted from 1;
    its snippet is the first 100 characters at most of that line, trimmed;
    its severity is one of the four names and its category one of the
    three; a log finding is [high] and an unencrypted-storage finding is
    [critical].  A readable file gives no warning. *)
Theorem scan_file_findings_shape (file_str content : string) (f : Finding) :
  f ∈ (scan_file file_str (inl content)).1 →
  file f = file_str
  ∧ (∃ i ln, split_lines content !! i = Some ln
             ∧ line f = 1 + Z.of_nat i
             ∧ code_snippet f = slice_to 100 (strip ln)
             ∧ is_comment_line ln = false)
  ∧ 1 ≤ line f ≤ Z.of_nat (length (split_lines content))
  ∧ (String.length (code_snippet f) ≤ 100)%nat
  ∧ well_formed f
  ∧ category f ∈ ["pii_field"; "pii_in_logs"; "unencrypted_pii"]
  ∧ (category f = "pii_in_logs" → severity f = "high")
  ∧ (category f = "unencrypted_pii" → severity f = "critical")
  ∧ (scan_file file_str (inl content)).2 = [].
Proof.
  cbn [scan_file fst snd]. intros (i & ln & Hi & Hf)%elem_of_scan_lines.
  pose proof (lookup_lt_Some _ _ _ Hi) as Hlen.
  apply elem_of_scan_line in Hf
    as [Hcomment [(? & ? & sev & _ & _ & ->)|[(? & _ & _ & ->)|(? & _ & _ & ->)]]];
    unfold field_finding, log_finding, unencrypted_finding;
    cbn [file line severity category code_snippet];
    (split_and!;
     [done|by exists i, ln|lia|lia|apply slice_to_length|
      |set_solver|done|done|done]).
  - by exists sev.
  - by exists HIGH.
  - by exists CRITICAL.
Qed.

Lemma scan_file_findings_shape_witness :
  line (log_finding "a.py" 2 "print(email)") = 1 + Z.of_nat 1.
Proof.
  destruct (scan_file_findings_shape "a.py"
              ("x = 1" +:+ newline +:+ "print(email)")
              (log_finding "a.py" 2 "print(email)"))
    as (_ & (i & ln & Hi & Hline & _) & _).
  - apply elem_of_scan_lines. exists 1%nat, "print(email)".
    split; [reflexivity|]. vm_compute. do 1 right; left.
  - reflexivity.
Defined.

(** ** Deduplication of the scanner's findings *)

Lemma keep_unseen_app seen l1 l2 :
  keep_unseen seen (l1 ++ l2)
  = keep_unseen seen l1
    ++ keep_unseen (list_to_set (key <$> l1) ∪ seen) l2.
Proof.
  revert seen. induction l1 as [|f l1 IH]; intros seen; csimpl.
  - by rewrite (left_id_L ∅ (∪)).
  - assert (list_to_set (key <$> l1) ∪ ({[key f]} ∪ seen)
            = {[key f]} ∪ list_to_set (key <$> l1) ∪ seen) as Hset.
    { apply set_eq. intros k. rewrite !elem_of_union. tauto. }
    case_bool_decide as Hf; rewrite IH; csimpl.
    + by rewrite Hset.
    + f_equal. f_equal.
      apply set_eq. intros k.
      rewrite !elem_of_union, elem_of_singleton. intuition congruence.
Qed.

Lemma keep_unseen_ext seen1 seen2 l :
  (∀ f, f ∈ l → key f ∈ seen1 ↔ key f ∈ seen2) →
  keep_unseen seen1 l = keep_unseen seen2 l.
Proof.
  revert seen1 seen2. induction l as [|f l IH]; intros seen1 seen2 H; [done|].
  simpl. pose proof (H f ltac:(left)) as Hf.
  assert (keep_unseen ({[key f]} ∪ seen1) l
          = keep_unseen ({[key f]} ∪ seen2) l) as E1.
  { apply IH. intros g Hg. pose proof (H g ltac:(by right)).
    rewrite !elem_of_union. tauto. }
  assert (keep_unseen seen1 l = keep_unseen seen2 l) as E2.
  { apply IH. intros g Hg. apply H. by right. }
  repeat case_bool_decide; try tauto; by rewrite ?E1, ?E2.
Qed.

Lemma keep_unseen_seen seen l :
  (∀ f, f ∈ l → key f ∈ seen) → keep_unseen seen l = [].
Proof.
  induction l as [|f l IH]; intros H; [done|]. simpl.
  rewrite bool_decide_false by (intros Hn; apply Hn, H; left).
  apply IH. intros g Hg. apply H. by right.
Qed.

Lemma keep_unseen_same_key seen l k :
  (∀ f, f ∈ l → key f = k) → k ∉ seen → keep_unseen seen l = take 1 l.
Proof.
  intros Hk Hseen. destruct l as [|f l]; [done|]. simpl.
  rewrite (Hk f) by left. rewrite bool_decide_true by done. f_equal.
  apply keep_unseen_seen. intros g Hg.
  rewrite (Hk g) by by right. apply elem_of_union. left.
  by apply elem_of_singleton.
Qed.

Lemma scan_line_hits file_path n ln :
  is_comment_line ln = false →
  scan_line file_path n ln
  = field_hits file_path n ln ++ log_hits file_path n ln
    ++ unencrypted_hits file_path n ln.
Proof. unfold scan_line. by intros ->. Qed.

Lemma field_hits_key file_path n ln f :
  f ∈ field_hits file_path n ln → key f = (file_path, n, "pii_field").
Proof.
  intros ([[pattern pii_type] sev] & _ & H)%list_elem_of_omap.
  destruct (re_search _ _); by simplify_eq.
Qed.

Lemma log_hits_key file_path n ln f :
  f ∈ log_hits file_path n ln → key f = (file_path, n, "pii_in_logs").
Proof.
  intros (pattern & _ & H)%list_elem_of_omap.
  destruct (re_search _ _); by simplify_eq.
Qed.

Lemma unencrypted_hits_key file_path n ln f :
  f ∈ unencrypted_hits file_path n ln →
  key f = (file_path, n, "unencrypted_pii").
Proof.
  intros (pattern & _ & H)%list_elem_of_omap.
  destruct (re_search _ _); by simplify_eq.
Qed.

(** X5. Deduplication keeps, of the findings of one line, the first of
    the field rules that fired (in the order of the catalogue), one log
    finding and one unencrypted-storage finding: three findings at most.
    The findings of the field rules that fired later are dropped, whatever
    their PII type and severity. *)
Theorem deduplicate_scan_line (file_path : string) (n : Z) (ln : string) :
  is_comment_line ln = false →
  deduplicate_findings (scan_line file_path n ln)
  = take 1 (field_hits file_path n ln)
    ++ take 1 (log_hits file_path n ln)
    ++ take 1 (unencrypted_hits file_path n ln)
  ∧ (length (deduplicate_findings (scan_line file_path n ln)) ≤ 3)%nat.
Proof.
  intros Hcomment.
  assert (deduplicate_findings (scan_line file_path n ln)
          = take 1 (field_hits file_path n ln)
            ++ take 1 (log_hits file_path n ln)
            ++ take 1 (unencrypted_hits file_path n ln)) as ->.
  { rewrite scan_line_hits, deduplicate_keep_unseen, !keep_unseen_app by done.
    f_equal; [|f_equal].
    - apply (keep_unseen_same_key _ _ (file_path, n, "pii_field"));
        [apply field_hits_key|apply not_elem_of_empty].
    - rewrite (keep_unseen_ext _ ∅).
      + apply (keep_unseen_same_key _ _ (file_path, n, "pii_in_logs"));
          [apply log_hits_key|apply not_elem_of_empty].
      + intros f Hf%log_hits_key. rewrite Hf.
        rewrite elem_of_union, elem_of_list_to_set, !elem_of_empty.
        split; [|tauto].
        intros [(g & E & Hg%field_hits_key)%list_elem_of_fmap|?];
          [congruence|done].
    - rewrite (keep_unseen_ext _ ∅).
      + apply (keep_unseen_same_key _ _ (file_path, n, "unencrypted_pii"));
          [apply unencrypted_hits_key|apply not_elem_of_empty].
      + intros f Hf%unencrypted_hits_key. rewrite Hf.
        rewrite !elem_of_union, !elem_of_list_to_set, !elem_of_empty.
        split; [|tauto].
        intros [(g & E & Hg%log_hits_key)%list_elem_of_fmap
               |[(g & E & Hg%field_hits_key)%list_elem_of_fmap|?]];
          [congruence|congruence|done]. }
  split; [done|]. rewrite !length_app, !length_take. lia.
Qed.

Lemma deduplicate_scan_line_witness :
  deduplicate_findings (scan_line "user.py" 5 "first_name, medical = row")
  = [field_finding "user.py" 5 "first_name, medical = row" "Name" MEDIUM].
Proof.
  refine (eq_trans
            (proj1 (deduplicate_scan_line "user.py" 5
                      "first_name, medical = row" _)) _);
    reflexivity.
Defined.

Lemma scan_lines_line_numbers file_path start lines f :
  f ∈ scan_lines file_path start lines → start ≤ line f.
Proof.
  intros (i & l & _ & Hf)%elem_of_scan_lines.
  destruct (scan_line_shape _ _ _ _ Hf) as (_ & -> & _). lia.
Qed.

(** X6. Deduplication never reaches across lines: the deduplicated
    findings of a file are the findings of its lines, each line
    deduplicated on its own, in the order of the lines. *)
Theorem deduplicate_scan_lines (file_path : string) (start : Z)
    (lines : list string) :
  deduplicate_findings (scan_lines file_path start lines)
  = scan_lines_dedup file_path start lines.
Proof.
  rewrite deduplicate_keep_unseen. revert start.
  induction lines as [|l ls IH]; intros start; [done|].
  simpl. rewrite keep_unseen_app, deduplicate_keep_unseen. f_equal.
  rewrite <-IH. apply keep_unseen_ext. intros f Hf.
  rewrite elem_of_union, elem_of_list_to_set, !elem_of_empty.
  split; [|tauto].
  intros [(g & E & Hg)%list_elem_of_fmap|?]; [|done].
  apply scan_lines_line_numbers in Hf.
  destruct (scan_line_shape _ _ _ _ Hg) as (_ & Hline & _).
  unfold key in E. simplify_eq. lia.
Qed.

(** ** Errors of the filter and of the sort *)

Lemma index_Some_well_formed f i :
  index (severity f) severity_order = Some i → well_formed f.
Proof.
  unfold index, severity_order.
  repeat case_bool_decide; intros; try done.
  - by exists CRITICAL.
  - by exists HIGH.
  - by exists MEDIUM.
  - by exists LOW.
Qed.

Lemma well_formed_or_not fs :
  Forall well_formed fs ∨ Exists (λ f, ¬ well_formed f) fs.
Proof.
  induction fs as [|f fs [IH|IH]].
  - left. constructor.
  - destruct (index (severity f) severity_order) eqn:E.
    + left. constructor; [by eapply index_Some_well_formed|done].
    + right. left. intros Hf. by rewrite index_well_formed in E.
  - right. by right.
Qed.

(** X7. The severity filter raises exactly when some finding has a
    severity that is none of the four names; it also raises, even on an
    empty list, when the threshold is none of them once lowercased. *)
Theorem filter_by_severity_raises_iff :
  (∀ fs sev,
     filter_by_severity fs (value sev) = None ↔
     Exists (λ f, ¬ well_formed f) fs)
  ∧ (∀ fs name,
       (∀ sev, lower name ≠ value sev) → filter_by_severity fs name = None).
Proof.
  split.
  - intros fs sev. split; [|apply filter_by_severity_raises].
    intros Hnone. destruct (well_formed_or_not fs) as [Hwf|]; [|done].
    by rewrite filter_by_severity_filter in Hnone.
  - intros fs name Hname. unfold filter_by_severity.
    destruct (index (lower name) severity_order) eqn:E; [|done].
    exfalso. revert E. unfold index, severity_order.
    repeat case_bool_decide; try done; intros _.
    + by apply (Hname CRITICAL).
    + by apply (Hname HIGH).
    + by apply (Hname MEDIUM).
    + by apply (Hname LOW).
Qed.

Lemma filter_by_severity_raises_iff_witness :
  filter_by_severity [] "severe" = None.
Proof.
  refine (proj2 filter_by_severity_raises_iff [] "severe" _).
  by intros [].
Defined.

(** X8. The final sort raises exactly when some finding has a severity
    that is none of the four names; an empty list is sorted without a
    lookup. *)
Theorem sort_findings_raises_iff (fs : list Finding) :
  sort_findings fs = None ↔ Exists (λ f, ¬ well_formed f) fs.
Proof.
  split; [|apply sort_findings_raises].
  intros Hnone. destruct (well_formed_or_not fs) as [Hwf|]; [|done].
  by rewrite sort_findings_stable_sort in Hnone.
Qed.

(** ** The post-processing pipeline *)

Lemma stable_sort_StronglySorted (l : list Finding) :
  StronglySorted finding_le (stable_sort by_sort_key l).
Proof.
  apply Sorted_StronglySorted; [apply _|]. apply stable_sort_Sorted.
  - intros x y. apply key_lt_false_le.
  - intros x y. apply key_lt_true_le.
Qed.

Lemma stable_sort_by_key_stable (l : list Finding) k :
  filter (λ f, full_key f = k) (stable_sort by_sort_key l)
  = filter (λ f, full_key f = k) l.
Proof.
  apply filter_stable_sort. intros a b Ha Hb. unfold by_sort_key.
  rewrite Ha, Hb. apply key_lt_irrefl.
Qed.

Lemma StronglySorted_filter {A} (R : relation A) (P : A → Prop)
    `{!∀ x, Decision (P x)} (l : list A) :
  StronglySorted R l → StronglySorted R (filter P l).
Proof.
  induction 1 as [|x l _ IH Hx]; [constructor|].
  rewrite filter_cons. case_decide; [|done]. constructor; [done|].
  apply Forall_forall. intros y [_ Hy]%list_elem_of_filter.
  by eapply Forall_forall in Hx.
Qed.

Lemma filter_comm {A} (P Q : A → Prop) `{!∀ x, Decision (P x)}
    `{!∀ x, Decision (Q x)} (l : list A) :
  filter P (filter Q l) = filter Q (filter P l).
Proof.
  induction l as [|x l IH]; [done|].
  rewrite !(filter_cons _ x l).
  destruct (decide (Q x)), (decide (P x));
    rewrite ?filter_cons_True, ?filter_cons_False by done; by rewrite IH.
Qed.

(** Sorting and filtering can be done in either order. *)
Lemma stable_sort_filter (P : Finding → Prop) `{!∀ x, Decision (P x)}
    (l : list Finding) :
  stable_sort by_sort_key (filter P l) = filter P (stable_sort by_sort_key l).
Proof.
  apply stable_sorted_unique.
  - by rewrite !stable_sort_Permutation.
  - apply stable_sort_StronglySorted.
  - apply StronglySorted_filter, stable_sort_StronglySorted.
  - intros k. rewrite stable_sort_by_key_stable.
    rewrite (filter_comm _ P (stable_sort by_sort_key l)).
    rewrite stable_sort_by_key_stable. apply filter_comm.
Qed.

Lemma process_stable_sort raw sev :
  Forall well_formed raw →
  process raw (value sev)
  = Some (stable_sort by_sort_key
            (filter (λ f, severity_rank (severity f) ≤ rank sev)%nat
               (deduplicate_findings raw))).
Proof.
  intros Hwf. unfold process.
  assert (Forall well_formed (deduplicate_findings raw)) as Hd.
  { apply Forall_forall. intros f Hf%deduplicate_elem_of.
    by eapply Forall_forall in Hwf. }
  rewrite filter_by_severity_filter by done. simpl.
  apply sort_findings_stable_sort.
  apply Forall_forall. intros f [_ Hf]%list_elem_of_filter.
  by eapply Forall_forall in Hd.
Qed.

(** X9. The threshold only removes findings from the report: for
    well-formed findings, the final list at any threshold is the final
    list at threshold [low], in the same order, without the findings that
    are less severe than the threshold. *)
Theorem process_threshold (raw : list Finding) (sev : Severity) :
  Forall well_formed raw →
  ∃ everything,
    process raw (value LOW) = Some everything
    ∧ everything ≡ₚ deduplicate_findings raw
    ∧ process raw (value sev)
      = Some (filter (λ f, severity_rank (severity f) ≤ rank sev)%nat
                everything).
Proof.
  intros Hwf. rewrite !process_stable_sort by done.
  assert (filter (λ f, severity_rank (severity f) ≤ rank LOW)%nat
            (deduplicate_findings raw) = deduplicate_findings raw) as ->.
  { apply filter_all, Forall_forall. intros f Hf%deduplicate_elem_of.
    eapply Forall_forall in Hwf as [s ->]; [|done].
    rewrite severity_rank_value. destruct s; simpl; lia. }
  eexists. split_and!; [done|apply stable_sort_Permutation|].
  by rewrite stable_sort_filter.
Qed.

Lemma process_threshold_witness :
  process [ log_finding "a.py" 1 "print(email)";
            unencrypted_finding "a.py" 2 "db.save(ssn)" ] (value CRITICAL)
  = Some [unencrypted_finding "a.py" 2 "db.save(ssn)"].
Proof.
  destruct (process_threshold
              [ log_finding "a.py" 1 "print(email)";
                unencrypted_finding "a.py" 2 "db.save(ssn)" ] CRITICAL)
    as (everything & Hlow & _ & ->).
  - repeat constructor; [by exists HIGH|by exists CRITICAL].
  - injection Hlow as <-. reflexivity.
Defined.

Lemma NoDup_key_filter (P : Finding → Prop) `{!∀ x, Decision (P x)}
    (l : list Finding) :
  NoDup (key <$> l) → NoDup (key <$> filter P l).
Proof.
  induction l as [|f l IH]; [done|]. rewrite fmap_cons, NoDup_cons.
  intros [Hf Hl]. rewrite filter_cons. case_decide; [|by apply IH].
  rewrite fmap_cons. constructor; [|by apply IH].
  intros (g & E & [_ Hg]%list_elem_of_filter)%list_elem_of_fmap.
  apply Hf. rewrite E. by apply list_elem_of_fmap_2.
Qed.

(** X10. Post-processing a final list again changes nothing: it has no
    two findings with one key, none below the threshold, and it is
    already in the order of the sort. *)
Theorem process_idempotent (raw final : list Finding) (sev : Severity) :
  Forall well_formed raw →
  process raw (value sev) = Some final →
  process final (value sev) = Some final
  ∧ NoDup (key <$> final)
  ∧ StronglySorted finding_le final
  ∧ Forall (λ f, f ∈ raw ∧ (severity_rank (severity f) ≤ rank sev)%nat)
      final.
Proof.
  intros Hwf Hfinal. rewrite process_stable_sort in Hfinal by done.
  injection Hfinal as <-.
  set (P := λ f, (severity_rank (severity f) ≤ rank sev)%nat).
  set (kept := filter P (deduplicate_findings raw)).
  assert (Forall (λ f, f ∈ raw ∧ P f) (stable_sort by_sort_key kept)) as Hall.
  { apply Forall_forall. intros f Hf.
    rewrite stable_sort_Permutation in Hf.
    apply list_elem_of_filter in Hf as [? Hf%deduplicate_elem_of]. done. }
  assert (NoDup (key <$> stable_sort by_sort_key kept)) as Hnd.
  { rewrite stable_sort_Permutation. apply NoDup_key_filter.
    rewrite deduplicate_keep_unseen. apply keep_unseen_NoDup. }
  split_and!; [|done|apply stable_sort_StronglySorted|done].
  rewrite process_stable_sort.
  2:{ eapply Forall_impl; [done|]. intros f [Hf _].
      by eapply Forall_forall in Hwf. }
  f_equal.
  assert (deduplicate_findings (stable_sort by_sort_key kept)
          = stable_sort by_sort_key kept) as ->.
  { rewrite deduplicate_keep_unseen.
    apply keep_unseen_id; [done|]. intros. apply not_elem_of_empty. }
  rewrite filter_all by (eapply Forall_impl; [done|]; by intros f [_ ?]).
  apply stable_sorted_unique.
  - apply stable_sort_Permutation.
  - apply stable_sort_StronglySorted.
  - apply stable_sort_StronglySorted.
  - intros k. apply stable_sort_by_key_stable.
Qed.

Lemma process_idempotent_witness :
  process [unencrypted_finding "a.py" 2 "db.save(ssn)";
           log_finding "a.py" 1 "print(email)"] (value HIGH)
  = Some [unencrypted_finding "a.py" 2 "db.save(ssn)";
          log_finding "a.py" 1 "print(email)"].
Proof.
  refine (proj1 (process_idempotent
                   [ log_finding "a.py" 1 "print(email)";
                     log_finding "a.py" 1 "print(email)";
                     unencrypted_finding "a.py" 2 "db.save(ssn)" ]
                   _ HIGH _ _)).
  - repeat constructor; [by exists HIGH|by exists HIGH|by exists CRITICAL].
  - reflexivity.
Defined.

(** ** The exit code of a run *)

Lemma exit_code_same (l1 l2 : list Finding) :
  (no_critical_high l1 ↔ no_critical_high l2) → exit_code l1 = exit_code l2.
Proof.
  intros H. rewrite <-!exit_code_spec in H.
  destruct (exit_code_cases l1) as [E1|E1], (exit_code_cases l2) as [E2|E2];
    rewrite E1, E2 in *; try done.
  - destruct H as [H _]. by specialize (H eq_refl).
  - destruct H as [_ H]. by specialize (H eq_refl).
Qed.

Lemma main_outcome (at_path : option Node) (args : Args) :
  let scanned := scan_all (get_files (args_path args) at_path) in
  ∃ final,
    process scanned.1 (value (args_severity args)) = Some final
    ∧ final ≡ₚ filter (λ f, severity_rank (severity f)
                             ≤ rank (args_severity args))%nat
                 (deduplicate_findings scanned.1)
    ∧ main at_path args
      = Exit (match args_output args with
              | text => TextOut (format_text_report final)
              | json => JsonOut (format_json_report final)
              end) scanned.2 (exit_code final).
Proof.
  intros scanned. unfold main. fold scanned.
  pose proof (scan_all_well_formed (get_files (args_path args) at_path))
    as Hwf. fold scanned in Hwf.
  destruct scanned as [all_findings warnings]. simpl in *.
  destruct (process_well_formed all_findings (args_severity args) Hwf)
    as (final & Hfinal & Hperm).
  exists final. rewrite Hfinal. by destruct (args_output args).
Qed.

Lemma no_critical_high_filter (l : list Finding) (r : nat) :
  (1 ≤ r)%nat →
  no_critical_high (filter (λ f, severity_rank (severity f) ≤ r)%nat l)
  ↔ no_critical_high l.
Proof.
  intros Hr. unfold no_critical_high. split; intros H f Hf.
  - destruct (decide (severity f = "critical")) as [E|Hc].
    { destruct (H f) as [Hn _]; [|done].
      apply list_elem_of_filter. split; [|done]. rewrite E.
      change (severity_rank "critical") with 0%nat. lia. }
    destruct (decide (severity f = "high")) as [E|Hh]; [|done].
    destruct (H f) as [_ Hn]; [|done].
    apply list_elem_of_filter. split; [|done]. rewrite E.
    change (severity_rank "high") with 1%nat. lia.
  - apply list_elem_of_filter in Hf as [_ Hf]. by apply H.
Qed.

Lemma no_critical_high_Permutation (l1 l2 : list Finding) :
  l1 ≡ₚ l2 → no_critical_high l1 ↔ no_critical_high l2.
Proof.
  intros Hp. unfold no_critical_high.
  split; intros H f Hf; apply H; [by rewrite Hp|by rewrite <-Hp].
Qed.

Lemma no_critical_high_critical (l : list Finding) (sev : Severity) :
  no_critical_high
    (filter (λ f, severity_rank (severity f) ≤ rank sev)%nat l) →
  no_critical_high
    (filter (λ f, severity_rank (severity f) ≤ rank CRITICAL)%nat l).
Proof.
  unfold no_critical_high. intros H f [Hr Hf]%list_elem_of_filter.
  apply H. apply list_elem_of_filter. split; [|done]. simpl in Hr. lia.
Qed.

(** X11. The exit code and the warnings of a run do not depend on the
    output format, and the exit code is the same for the thresholds
    [high], [medium] and [low]: the findings that decide it pass all three.
    A run that exits with 1 at threshold [critical] exits with 1 at every
    threshold. *)
Theorem exit_code_and_arguments (at_path : option Node) (root : Path)
    (out1 out2 : OutputFormat) (sev1 sev2 : Severity) :
  warnings_of (main at_path (mkArgs root out1 sev1))
  = warnings_of (main at_path (mkArgs root out2 sev2))
  ∧ code_of (main at_path (mkArgs root out1 sev1))
    = code_of (main at_path (mkArgs root out2 sev1))
  ∧ (sev1 ≠ CRITICAL → sev2 ≠ CRITICAL →
     code_of (main at_path (mkArgs root out1 sev1))
     = code_of (main at_path (mkArgs root out2 sev2)))
  ∧ (code_of (main at_path (mkArgs root out1 CRITICAL)) = Some 1 →
     code_of (main at_path (mkArgs root out2 sev2)) = Some 1).
Proof.
  destruct (main_outcome at_path (mkArgs root out1 sev1))
    as (f1 & P1 & Hp1 & ->).
  destruct (main_outcome at_path (mkArgs root out2 sev2))
    as (f2 & P2 & Hp2 & ->).
  destruct (main_outcome at_path (mkArgs root out2 sev1))
    as (f3 & P3 & Hp3 & ->).
  destruct (main_outcome at_path (mkArgs root out1 CRITICAL))
    as (f4 & P4 & Hp4 & ->).
  cbn [args_path args_severity args_output code_of warnings_of] in *.
  rewrite P1 in P3. injection P3 as <-.
  split_and!; try done.
  - intros H1 H2. f_equal. apply exit_code_same.
    rewrite (no_critical_high_Permutation _ _ Hp1),
      (no_critical_high_Permutation _ _ Hp2).
    rewrite !no_critical_high_filter; [done|..].
    + destruct sev2; simpl; [done|lia..].
    + destruct sev1; simpl; [done|lia..].
  - intros [= H4]. f_equal.
    destruct (exit_code_cases f2) as [H2|H2]; [|done]. exfalso.
    apply exit_code_spec in H2.
    rewrite (no_critical_high_Permutation _ _ Hp2) in H2.
    apply no_critical_high_critical in H2.
    rewrite <-(no_critical_high_Permutation _ _ Hp4) in H2.
    apply exit_code_spec in H2. congruence.
Qed.

Lemma exit_code_and_arguments_witness :
  code_of (main (Some (File (inl "print(email)")))
             (mkArgs ["a.py"] text HIGH))
  = code_of (main (Some (File (inl "print(email)")))
               (mkArgs ["a.py"] json LOW)).
Proof.
  refine (proj1 (proj2 (proj2 (exit_code_and_arguments _ _ _ _ _ _))) _ _);
    done.
Defined.

(** ** The structured report *)

Lemma count_severity_cons sev f fs :
  count_severity sev (f :: fs)
  = ((if bool_decide (severity f = sev) then 1 else 0)
     + count_severity sev fs)%nat.
Proof.
  unfold count_severity. rewrite filter_cons.
  by case_decide; case_bool_decide.
Qed.

(** X12. In the structured report [total] counts every finding, while
    the four severity counts count the findings of their severity: the
    four add up to [total] less the findings whose severity is none of the
    four names, so they add up to [total] for well-formed findings.
    [passed] is true exactly when the [critical] and [high] counts are
    both zero, and the findings are listed as given. *)
Theorem json_report_summary (fs : list Finding) :
  let r := format_json_report fs in
  total (summary r) = length fs
  ∧ findings r = fs
  ∧ (critical (summary r) + high (summary r) + medium (summary r)
     + low (summary r)
     + length (filter (λ f, severity f ∉ severity_order) fs))%nat
    = total (summary r)
  ∧ (Forall well_formed fs →
     (critical (summary r) + high (summary r) + medium (summary r)
      + low (summary r))%nat = total (summary r))
  ∧ (passed r = true ↔
     critical (summary r) = O ∧ high (summary r) = O).
Proof.
  intros r.
  assert ((critical (summary r) + high (summary r) + medium (summary r)
           + low (summary r)
           + length (filter (λ f, severity f ∉ severity_order) fs))%nat
          = total (summary r)) as Hsum.
  { subst r. cbn [format_json_report summary total critical high medium low].
    induction fs as [|f fs IH]; [done|].
    rewrite !count_severity_cons, filter_cons. cbn [length].
    unfold severity_order in *.
    repeat case_bool_decide; case_decide as Hin;
      rewrite ?elem_of_cons, ?elem_of_nil in Hin; cbn [length];
      try lia; try congruence; exfalso; try tauto.
    all: apply Hin; tauto. }
  split_and!; try done.
  - intros Hwf. rewrite <-Hsum.
    assert (filter (λ f, severity f ∉ severity_order) fs = []) as ->;
      [|simpl; lia].
    clear Hsum r. induction Hwf as [|f fs' [sev E] _ IH]; [done|].
    rewrite filter_cons_False; [done|]. intros Hn. apply Hn.
    rewrite E. unfold severity_order. destruct sev; simpl;
      rewrite !elem_of_cons; tauto.
  - subst r. rewrite passed_spec. apply no_critical_high_counts.
Qed.

Lemma json_report_summary_witness :
  summary (format_json_report
             [ log_finding "a.py" 1 "print(email)";
               unencrypted_finding "a.py" 2 "db.save(ssn)" ])
  = {| total := 2; critical := 1; high := 1; medium := 0; low := 0 |}
  ∧ (1 + 1 + 0 + 0 = 2)%nat.
Proof.
  split; [reflexivity|].
  refine (proj1 (proj2 (proj2 (proj2
            (json_report_summary
               [ log_finding "a.py" 1 "print(email)";
                 unencrypted_finding "a.py" 2 "db.save(ssn)" ])))) _).
  repeat constructor; [by exists HIGH|by exists CRITICAL].
Defined.

(** ** The text report *)








(** ** When the log rules fire *)

(** X14. A line gives a [pii_in_logs] finding exactly when it is not a
    comment line and its case-folded text has, in this order: one of the
    call names the log rules know, white space or nothing, an opening
    parenthesis, text without a closing parenthesis that does not end in a
    word character, and one of the log tokens.  What precedes the call and
    what follows the token play no part. *)
Theorem log_finding_iff (file_path : string) (n : Z) (ln : string) :
  log_finding file_path n ln ∈ scan_line file_path n ln ↔
  is_comment_line ln = false
  ∧ ∃ pre call ws args tok rest,
      lower ln = pre +:+ call +:+ ws +:+ "(" +:+ args +:+ tok +:+ rest
      ∧ call ∈ log_calls
      ∧ all_chars is_space ws = true
      ∧ all_chars (is_not ")") args = true
      ∧ last_is_word args = false
      ∧ tok ∈ log_tokens.
Proof.
  split.
  - intros [Hcomment Hf]%elem_of_scan_line. split; [done|].
    destruct Hf as [(? & ? & ? & _ & _ & [=])
                   |[(pattern & Hin & Hs & _)|(? & _ & _ & [=])]].
    apply log_pattern_callee in Hin as (callee & -> & Hcallee).
    by apply (log_pattern_inv callee).
  - intros (Hcomment & pre & call & ws & args & tok & rest & Hln & Hcall
            & Hws & Hargs & Hlast & Htok).
    destruct (log_call_pattern call Hcall) as (callee & Hin & Hden).
    apply (scan_line_log _ _ _ (log_pattern callee)); [done..|].
    rewrite Hln. by apply log_pattern_fires.
Qed.

(** ** When the request-read rule fires *)

Lemma den_plus_class (p : ascii → bool) (z z' : pos) :
  den (plus (Chr p)) z z' ↔
  ∃ u, u ≠ [] ∧ forallb p u = true ∧ covers z u z'.
Proof.
  split.
  - intros (m & (c & t & E & Hc & ->) & Hstar).
    apply den_star_class in Hstar as (u & Hu & [E' F']).
    exists (c :: u). split; [done|]. split; [by simpl; rewrite Hc|].
    split; simpl in *.
    + by rewrite E, E'.
    + by rewrite F', reverse_cons, <-(assoc_L (++)).
  - intros (u & Hne & Hu & [E F]). destruct z as [b v], z' as [b' v'].
    simpl in *. subst. by apply den_plus_run.
Qed.

Lemma den_optional_quote (z z' : pos) :
  den (opt (one_of ["'"%char; "034"%char])) z z' ↔
  ∃ q, q ∈ optional_quotes ∧ covers z (chars q) z'.
Proof.
  unfold optional_quotes. split.
  - intros [(c & t & E & Hc & ->)| ->].
    + simpl in Hc. rewrite orb_false_r, orb_true_iff, !Ascii.eqb_eq in Hc.
      destruct Hc as [-> | ->].
      * exists "'". split; [right; left|]. by split.
      * exists (String "034" EmptyString). split; [do 2 right; left|].
        by split.
    + exists "". split; [left|]. by split.
  - intros (q & Hq & [E F]). rewrite !elem_of_cons, elem_of_nil in Hq.
    destruct z as [b v], z' as [b' v']. simpl in *.
    destruct Hq as [->|[->|[->|[]]]]; simpl in *; subst.
    + by right.
    + left. by exists "'"%char, v'.
    + left. by exists "034"%char, v'.
Qed.

(** X15. The request-read rule finds its pattern exactly in the texts that
    have, in this order: a run of word characters, an equals sign, one
    of [request] and [req], a dot, one of [body], [form], [params] and
    [query], an opening bracket, an optional quote and one of the rule's
    tokens, with optional white space around the equals sign and the
    bracket.  Nothing is asked of what follows the token, so the rule has
    no exemption for [encrypt], and a line with such a text that is not a
    comment gives an [unencrypted_pii] finding. *)
Theorem request_read_iff :
  (∀ text,
     re_search request_read_pattern text = true ↔
     ∃ pre var ws1 ws2 obj field ws3 ws4 quote tok rest,
       text = pre +:+ var +:+ ws1 +:+ "=" +:+ ws2 +:+ obj +:+ "." +:+ field
              +:+ ws3 +:+ "[" +:+ ws4 +:+ quote +:+ tok +:+ rest
       ∧ var ≠ "" ∧ all_chars is_word var = true
       ∧ all_chars is_space ws1 = true ∧ all_chars is_space ws2 = true
       ∧ obj ∈ request_objects ∧ field ∈ request_fields
       ∧ all_chars is_space ws3 = true ∧ all_chars is_space ws4 = true
       ∧ quote ∈ optional_quotes ∧ tok ∈ request_tokens)
  ∧ (∀ file_path n ln,
       is_comment_line ln = false →
       re_search request_read_pattern (lower ln) = true →
       unencrypted_finding file_path n ln ∈ scan_line file_path n ln).
Proof.
  split.
  - intros text. split.
    + intros Hs. apply search_from_spec in Hs as (u & v & z' & E & Hden).
      unfold request_read_pattern in Hden.
      apply den_cat_cons in Hden as (m1 & H1 & Hden).
      apply den_cat_cons in Hden as (m2 & H2 & Hden).
      apply den_cat_cons in Hden as (m3 & H3 & Hden).
      apply den_cat_cons in Hden as (m4 & H4 & Hden).
      apply den_cat_cons in Hden as (m5 & H5 & Hden).
      apply den_cat_cons in Hden as (m6 & H6 & Hden).
      apply den_cat_cons in Hden as (m7 & H7 & Hden).
      apply den_cat_cons in Hden as (m8 & H8 & Hden).
      apply den_cat_cons in Hden as (m9 & H9 & Hden).
      apply den_cat_cons in Hden as (m10 & H10 & Hden).
      apply den_cat_cons in Hden as (m11 & H11 & H12).
      apply den_plus_class in H1 as (var & Hne & Hvar & [E1 _]).
      apply den_star_class in H2 as (ws1 & Hws1 & [E2 _]).
      apply den_chr in H3 as [E3 _].
      apply den_star_class in H4 as (ws2 & Hws2 & [E4 _]).
      apply den_words in H5 as (obj & Hobj & [E5 _]).
      apply den_chr in H6 as [E6 _].
      apply den_words in H7 as (field & Hfield & [E7 _]).
      apply den_star_class in H8 as (ws3 & Hws3 & [E8 _]).
      apply den_chr in H9 as [E9 _].
      apply den_star_class in H10 as (ws4 & Hws4 & [E10 _]).
      apply den_optional_quote in H11 as (quote & Hquote & [E11 _]).
      change (den (words request_tokens) m11 z') in H12.
      apply den_words in H12 as (tok & Htok & [E12 _]).
      simpl in E1, E2, E3, E4, E5, E6, E7, E8, E9, E10, E11, E12.
      exists (of_chars u), (of_chars var), (of_chars ws1), (of_chars ws2),
        obj, field, (of_chars ws3), (of_chars ws4), quote, tok,
        (of_chars z'.2).
      unfold all_chars. rewrite !chars_of_chars.
      split_and!; try done.
      * apply chars_inj. rewrite !chars_app, !chars_of_chars.
        rewrite E, E1, E2, E3, E4, E5, E6, E7, E8, E9, E10, E11, E12.
        done.
      * intros Hnil. apply Hne.
        by rewrite <-(chars_of_chars var), Hnil.
    + intros (pre & var & ws1 & ws2 & obj & field & ws3 & ws4 & quote & tok
              & rest & -> & Hne & Hvar & Hws1 & Hws2 & Hobj & Hfield & Hws3
              & Hws4 & Hquote & Htok).
      unfold all_chars in *.
      eapply re_search_intro. rewrite !chars_app.
      unfold request_read_pattern.
      eapply den_cat_run.
      { apply den_plus_run; [|done]. by destruct var. }
      eapply den_cat_run; [by apply den_star_run|].
      eapply den_cat_run; [apply den_chr_run|].
      eapply den_cat_run; [by apply den_star_run|].
      eapply den_cat_run; [by apply den_words_run|].
      eapply den_cat_run; [apply den_chr_run|].
      eapply den_cat_run; [by apply den_words_run|].
      eapply den_cat_run; [by apply den_star_run|].
      eapply den_cat_run; [apply den_chr_run|].
      eapply den_cat_run; [by apply den_star_run|].
      eapply den_cat_run.
      { apply den_optional_quote. exists quote. split; [done|].
        apply covers_run. }
      apply den_cat_last. by apply den_words_run.
  - intros file_path n ln Hcomment Hs.
    apply (scan_line_unencrypted _ _ _ request_read_pattern);
      [done|left|done].
Qed.

Lemma request_read_iff_witness :
  unencrypted_finding "api.js" 9 "const pw = req.body['password'] // encrypt"
  ∈ scan_line "api.js" 9 "const pw = req.body['password'] // encrypt".
Proof.
  refine (proj2 request_read_iff "api.js" 9 _ _ _); reflexivity.
Defined.

(** ** From the tree to the report *)

Lemma elem_of_scan_all (files : list (Path * FileData)) (f : Finding) :
  f ∈ (scan_all files).1 ↔
  ∃ p data, (p, data) ∈ files ∧ f ∈ (scan_file (path_str p) data).1.
Proof.
  induction files as [|[p d] files IH].
  - split; [by intros ?%elem_of_nil|].
    by intros (? & ? & ?%elem_of_nil & _).
  - rewrite scan_all_cons. cbn [fst]. rewrite elem_of_app, IH. split.
    + intros [H|(q & data & Hin & H)].
      * exists p, d. split; [left|done].
      * exists q, data. split; [by right|done].
    + intros (q & data & [[= -> ->]|Hin]%elem_of_cons & H); [by left|].
      right. by exists q, data.
Qed.

Lemma severity_rank_le_3 (name : string) : (severity_rank name ≤ 3)%nat.
Proof. unfold severity_rank. repeat case_bool_decide; lia. Qed.

(** X16. What a run reports comes from the tree and from nowhere else.
    Every finding of the printed report passes the threshold and was made
    on a line, not a comment, of a readable file that the selector yields,
    and carries the path of that file and the number of that line; no two
    reported findings share file, line and category; and at the threshold
    [low] every finding made on a line of a selected file has a reported
    finding with its file, line and category. *)
Theorem report_traces_the_tree (at_path : option Node) (args : Args)
    (out : Printed) (warnings : list string) (code : Z) :
  main at_path args = Exit out warnings code →
  ∃ final,
    out = match args_output args with
          | text => TextOut (format_text_report final)
          | json => JsonOut (format_json_report final)
          end
    ∧ code = exit_code final
    ∧ NoDup (key <$> final)
    ∧ (∀ f, f ∈ final →
         (severity_rank (severity f) ≤ rank (args_severity args))%nat
         ∧ ∃ p content i ln,
             (p, inl content) ∈ get_files (args_path args) at_path
             ∧ should_scan_file p = true
             ∧ split_lines content !! i = Some ln
             ∧ is_comment_line ln = false
             ∧ file f = path_str p
             ∧ line f = 1 + Z.of_nat i
             ∧ f ∈ scan_line (path_str p) (1 + Z.of_nat i) ln)
    ∧ (args_severity args = LOW →
       ∀ p content i ln g,
         (p, inl content) ∈ get_files (args_path args) at_path →
         split_lines content !! i = Some ln →
         g ∈ scan_line (path_str p) (1 + Z.of_nat i) ln →
         ∃ f, f ∈ final ∧ key f = key g).
Proof.
  intros Hmain.
  destruct (main_outcome at_path args) as (final & _ & Hperm & Hrun).
  rewrite Hrun in Hmain. injection Hmain as <- _ <-.
  exists final. split_and!; [done|done|..].
  - rewrite Hperm. apply NoDup_key_filter.
    rewrite deduplicate_keep_unseen. apply keep_unseen_NoDup.
  - intros f Hf. rewrite Hperm in Hf.
    apply list_elem_of_filter in Hf as [Hrank Hf]. split; [done|].
    apply deduplicate_elem_of, elem_of_scan_all in Hf
      as (p & [content|e] & Hp & Hf); [|by apply elem_of_nil in Hf].
    cbn [scan_file fst] in Hf.
    apply elem_of_scan_lines in Hf as (i & ln & Hi & Hf).
    pose proof (scan_line_shape _ _ _ _ Hf) as (Hfile & Hline & _).
    pose proof (proj1 (elem_of_scan_line _ _ _ _) Hf) as [Hcomment _].
    pose proof (get_files_selected _ _ _ _ Hp) as [Hscan _].
    by exists p, content, i, ln.
  - intros Hlow p content i ln g Hp Hi Hg.
    assert (g ∈ (scan_all (get_files (args_path args) at_path)).1) as Hraw.
    { apply elem_of_scan_all. exists p, (inl content). split; [done|].
      cbn [scan_file fst]. apply elem_of_scan_lines. by exists i, ln. }
    apply deduplicate_covers in Hraw as (f & Hf & Hkey).
    exists f. split; [|done]. rewrite Hperm.
    apply list_elem_of_filter. split; [|done].
    rewrite Hlow. apply severity_rank_le_3.
Qed.

Lemma report_traces_the_tree_witness :
  ∃ final,
    JsonOut (format_json_report
               [field_finding "app/dao.py" 2 "db.save(ssn)" "SSN" CRITICAL;
                unencrypted_finding "app/dao.py" 2 "db.save(ssn)"])
    = JsonOut (format_json_report final)
    ∧ NoDup (key <$> final).
Proof.
  destruct (report_traces_the_tree
              (Some (Dir [("dao.py",
                           File (inl ("import db" +:+ newline
                                      +:+ "db.save(ssn)")));
                          ("README", File (inl "password"))]))
              {| args_path := ["app"]; args_output := json;
                 args_severity := LOW |}
              (JsonOut (format_json_report
                 [field_finding "app/dao.py" 2 "db.save(ssn)" "SSN"
                    CRITICAL;
                  unencrypted_finding "app/dao.py" 2 "db.save(ssn)"]))
              [] 1)
    as (final & Hout & _ & Hnd & _).
  - vm_compute. reflexivity.
  - exists final. split; [exact Hout|exact Hnd].
Defined.
